(** * Grid navigation and backtracking planner of [real_time_map_and_nav_pynn.py]

    A shallow embedding of the planner of [run_navigation_loop] and of its two
    helpers [manhattan_nearest_cell_to_target] and [direction_from_cells].

    - Python integers are [Z]; [//] and [%] are [Z.div] and [Z.modulo]
      (both round towards minus infinity, as Python does), with the
      [ZeroDivisionError] of a zero divisor written out.
    - The numpy array [final_map_state] is a list of rows updated by index;
      an index [i] into an axis of length [n] is valid for [-n <= i < n]
      (negative indices count from the end) and raises [IndexError] otherwise.
    - [robotPath], [obstacles], [freeCells] and [obstacleCells] are lists.
    - The module level configuration selected by [experiment] is a record
      [Config]; the local variables of [run_navigation_loop] that live across
      iterations are the record [NavState].
    - Exceptions are the left summand of [Exc].
    - The calls into the neural simulator do not influence the planner; of
      step 4 of the loop body only the emitted command is kept, appended to
      the field [commands]. *)

From Stdlib Require Import ZArith QArith Lia.
From stdpp Require Import base tactics numbers option list sorting.

Local Open Scope Z_scope.

(** ** Exceptions *)

Inductive error : Type :=
| IndexError
| ValueError
| ZeroDivisionError.

Definition Exc (A : Type) : Type := (error + A)%type.

Definition raise {A : Type} (e : error) : Exc A := inl e.
Definition ret {A : Type} (a : A) : Exc A := inr a.

Definition bind {A B : Type} (m : Exc A) (f : A → Exc B) : Exc B :=
  match m with
  | inl e => inl e
  | inr a => f a
  end.

Notation "'let*' x ':=' m 'in' k" := (bind m (fun x => k))
  (at level 10, x pattern, m at level 100, k at level 200).

(** ** Configuration *)

Abbreviation cell := (Z * Z)%type.

Record Config : Type := mkConfig {
  xlength : Z;
  ylength : Z;
  xinit : Z;
  yinit : Z;
  xend : Z;
  yend : Z;
  obstacles : list Z
}.

(** The [if experiment == ...] chain at module level. *)
Definition experiment_config (experiment : Z) : Config :=
  if experiment =? 0 then mkConfig 4 4 2 0 0 3 []
  else if experiment =? 1 then mkConfig 4 4 2 0 0 3 [11]
  else if experiment =? 2 then mkConfig 6 6 2 0 5 5 [5; 12; 15; 23; 30; 34]
  else mkConfig 6 6 2 0 5 5 [5; 9; 12; 15; 21; 23; 28; 30].

Definition maxRepeatedIteration : Z := 3.

(** ** Helpers *)

Definition distance (target c : cell) : Z :=
  Z.abs (c.1 - target.1) + Z.abs (c.2 - target.2).

(** One iteration of the [for cell in cells] loop; the accumulator is
    [(nearest_cells, nearest_distance)]. *)
Definition nearest_step (target : cell) (acc : list cell * Z) (c : cell)
  : list cell * Z :=
  let '(nearest_cells, nearest_distance) := acc in
  let d := distance target c in
  if (nearest_distance =? -1) || (d <=? nearest_distance) then
    ((if d =? nearest_distance then nearest_cells ++ [c] else [c]), d)
  else acc.

Definition manhattan_nearest_cell_to_target (target : cell) (cells : list cell)
  : list cell :=
  (fold_left (nearest_step target) cells ([], -1)).1.

Definition direction_from_cells (last_cell next_cell : cell) : Exc Z :=
  let '(cx, cy) := last_cell in
  let '(nx, ny) := next_cell in
  if (ny =? cy - 1) && (nx =? cx) then ret 0
  else if (nx =? cx - 1) && (ny =? cy) then ret 1
  else if (nx =? cx + 1) && (ny =? cy) then ret 2
  else if (ny =? cy + 1) && (nx =? cx) then ret 3
  else raise ValueError.

(** [x in l] on lists of integers. *)
Definition inb (x : Z) (l : list Z) : bool := existsb (Z.eqb x) l.

(** ** The numpy grid *)

Abbreviation grid := (list (list Z)).

(** [np.zeros((rows, cols), dtype=int)]; a negative dimension raises. *)
Definition np_zeros (rows cols : Z) : Exc grid :=
  if (rows <? 0) || (cols <? 0) then raise ValueError
  else ret (replicate (Z.to_nat rows) (replicate (Z.to_nat cols) 0)).

(** Index normalisation along one axis of length [n]. *)
Definition np_index (n : nat) (i : Z) : Exc nat :=
  if (0 <=? i) && (i <? Z.of_nat n) then ret (Z.to_nat i)
  else if (- Z.of_nat n <=? i) && (i <? 0) then ret (Z.to_nat (i + Z.of_nat n))
  else raise IndexError.

Definition grid_get (m : grid) (y x : Z) : Exc Z :=
  let* r := np_index (length m) y in
  match m !! r with
  | None => raise IndexError
  | Some row =>
      let* c := np_index (length row) x in
      match row !! c with
      | None => raise IndexError
      | Some v => ret v
      end
  end.

Definition grid_set (m : grid) (y x v : Z) : Exc grid :=
  let* r := np_index (length m) y in
  match m !! r with
  | None => raise IndexError
  | Some row =>
      let* c := np_index (length row) x in
      ret (<[r := <[c := v]> row]> m)
  end.

(** [if m[y, x] not in (1, 2): m[y, x] = 3] *)
Definition mark_step (m : grid) (y x : Z) : Exc grid :=
  let* v := grid_get m y x in
  if (v =? 1) || (v =? 2) then ret m else grid_set m y x 3.

(** ** Navigation state *)

Record NavState : Type := mkNavState {
  cellX : Z;
  cellY : Z;
  lastCellX : Z;
  lastCellY : Z;
  robotPath : list Z;
  backtracking : bool;
  crossroadCell : bool;
  nearestCell : cell;
  iterationsRepeated : Z;
  finish : bool;
  unachievable : bool;
  final_map_state : grid;
  commands : list Z
}.

Definition linear_index (w : Z) (c : cell) : Z := c.2 * w + c.1 + 1.

(** The decoding of the backtracking branch. *)
Definition cell_of_index (w : Z) (id : Z) : Exc cell :=
  if w =? 0 then raise ZeroDivisionError
  else ret ((id - 1) mod w, (id - 1) / w).

Section Navigation.

Variable cfg : Config.

(** Lines 235-254: the two maps and the initial navigation state. *)
Definition init_state : Exc NavState :=
  let* m0 := np_zeros (ylength cfg) (xlength cfg) in
  let* m1 := grid_set m0 (yinit cfg) (xinit cfg) 1 in
  let* initial_map_state := grid_set m1 (yend cfg) (xend cfg) 2 in
  ret {| cellX := xinit cfg; cellY := yinit cfg;
         lastCellX := xinit cfg; lastCellY := yinit cfg;
         robotPath := [yinit cfg * xlength cfg + xinit cfg + 1];
         backtracking := false;
         crossroadCell := false;
         nearestCell := (xinit cfg, yinit cfg);
         iterationsRepeated := 0;
         finish := false;
         unachievable := false;
         final_map_state := initial_map_state;
         commands := [] |}.

(** The neighbour of the current cell in one direction, when the direction is
    one of 0..3 and the neighbour is inside the grid; [None] is the
    [continue] of the [else] arm. *)
Definition neighbour (x y : Z) (direction : Z) : option cell :=
  if (direction =? 0) && (0 <=? y - 1) then Some (x, y - 1)
  else if (direction =? 1) && (0 <=? x - 1) then Some (x - 1, y)
  else if (direction =? 2) && (x + 1 <? xlength cfg) then Some (x + 1, y)
  else if (direction =? 3) && (y + 1 <? ylength cfg) then Some (x, y + 1)
  else None.

(** The accumulator of the scan: [(freeCells, obstacleCells, final_map_state)]. *)
Definition scan_acc : Type := (list cell * list cell * grid)%type.

(** Body of [for direction in range(4)]. *)
Definition scan_direction (s : NavState) (acc : scan_acc) (direction : Z)
  : Exc scan_acc :=
  let '(freeCells, obstacleCells, m) := acc in
  match neighbour (cellX s) (cellY s) direction with
  | None => ret acc
  | Some (nx, ny) =>
      let position := ny * xlength cfg + nx + 1 in
      if inb position (obstacles cfg) then
        let* m' := grid_set m ny nx 6 in
        ret (freeCells, obstacleCells ++ [(nx, ny)], m')
      else if negb (inb position (robotPath s)) && negb (backtracking s) then
        let* v := grid_get m ny nx in
        let* m' := (if v =? 0 then grid_set m ny nx 5 else ret m) in
        ret (freeCells ++ [(nx, ny)], obstacleCells, m')
      else ret acc
  end.

Fixpoint scan_from (s : NavState) (directions : list Z) (acc : scan_acc)
  : Exc scan_acc :=
  match directions with
  | [] => ret acc
  | d :: ds => let* acc' := scan_direction s acc d in scan_from s ds acc'
  end.

(** Step 1 of the loop body. *)
Definition scan (s : NavState) : Exc scan_acc :=
  scan_from s [0; 1; 2; 3] ([], [], final_map_state s).

(** What step 2 of the loop body hands to step 3: either the [break] with the
    state the loop is left in, or the next cell together with the variables
    step 2 has changed. *)
Inductive decision : Type :=
| Break (s : NavState)
| Move (next : cell) (s : NavState).

(** Step 2, [if freeCells:] arm. *)
Definition forward (s : NavState) (freeCells : list cell) (m : grid)
  : Exc decision :=
  let nearestCells :=
    manhattan_nearest_cell_to_target (xend cfg, yend cfg) freeCells in
  match last nearestCells with
  | None => raise IndexError
  | Some nc =>
      let* m' := mark_step m (cellY s) (cellX s) in
      ret (Move nc
        {| cellX := cellX s; cellY := cellY s;
           lastCellX := lastCellX s; lastCellY := lastCellY s;
           robotPath := robotPath s;
           backtracking := backtracking s;
           crossroadCell := crossroadCell s;
           nearestCell := nc;
           iterationsRepeated := iterationsRepeated s;
           finish := finish s;
           unachievable := unachievable s;
           final_map_state := m';
           commands := commands s |})
  end.

(** Step 2, [else:] arm (dead end). *)
Definition dead_end (s : NavState) (m : grid) : Exc decision :=
  let it := iterationsRepeated s + 1 in
  if maxRepeatedIteration <=? it then
    ret (Break
      {| cellX := cellX s; cellY := cellY s;
         lastCellX := lastCellX s; lastCellY := lastCellY s;
         robotPath := robotPath s;
         backtracking := backtracking s;
         crossroadCell := crossroadCell s;
         nearestCell := nearestCell s;
         iterationsRepeated := it;
         finish := finish s;
         unachievable := true;
         final_map_state := m;
         commands := commands s |})
  else if 1 <? Z.of_nat (length (robotPath s)) then
    let popped := removelast (robotPath s) in
    match last popped with
    | None => raise IndexError
    | Some last_id =>
        let* next := cell_of_index (xlength cfg) last_id in
        ret (Move next
          {| cellX := cellX s; cellY := cellY s;
             lastCellX := lastCellX s; lastCellY := lastCellY s;
             robotPath := popped;
             backtracking := true;
             crossroadCell := crossroadCell s;
             nearestCell := nearestCell s;
             iterationsRepeated := it;
             finish := finish s;
             unachievable := unachievable s;
             final_map_state := m;
             commands := commands s |})
    end
  else
    ret (Break
      {| cellX := cellX s; cellY := cellY s;
         lastCellX := lastCellX s; lastCellY := lastCellY s;
         robotPath := robotPath s;
         backtracking := true;
         crossroadCell := crossroadCell s;
         nearestCell := nearestCell s;
         iterationsRepeated := it;
         finish := finish s;
         unachievable := true;
         final_map_state := m;
         commands := commands s |}).

(** Steps 3 and 4 and the termination guard. *)
Definition commit (s : NavState) (freeCells : list cell) (next : cell)
  : Exc NavState :=
  let* command := direction_from_cells (cellX s, cellY s) next in
  let lastX := cellX s in
  let lastY := cellY s in
  let '(cx, cy) := next in
  let path := robotPath s ++ [cy * xlength cfg + cx + 1] in
  let* m1 := (if 1 <? Z.of_nat (length freeCells)
          then grid_set (final_map_state s) lastY lastX 4
          else ret (final_map_state s)) in
  let reached := (cx =? xend cfg) && (cy =? yend cfg) in
  let* m2 := (if reached then grid_set m1 cy cx 2 else mark_step m1 cy cx) in
  let it := iterationsRepeated s + 1 in
  ret {| cellX := cx; cellY := cy;
         lastCellX := lastX; lastCellY := lastY;
         robotPath := path;
         backtracking := backtracking s;
         crossroadCell := crossroadCell s;
         nearestCell := nearestCell s;
         iterationsRepeated := it;
         finish := if reached then true else finish s;
         unachievable := if 200 <=? it then true else unachievable s;
         final_map_state := m2;
         commands := commands s ++ [command] |}.

(** One pass through the body of [while not finish and not unachievable]. *)
Definition step (s : NavState) : Exc NavState :=
  let* (freeCells, obstacleCells, m) := scan s in
  let* d := (match freeCells with
         | [] => dead_end s m
         | _ :: _ => forward s freeCells m
         end) in
  match d with
  | Break s' => ret s'
  | Move next s' => commit s' freeCells next
  end.

Definition running (s : NavState) : bool :=
  negb (finish s) && negb (unachievable s).

(** The [while] loop, unrolled at most [fuel] times. *)
Fixpoint iterate (fuel : nat) (s : NavState) : Exc NavState :=
  match fuel with
  | O => ret s
  | S k => if running s then let* s' := step s in iterate k s' else ret s
  end.

Definition run_navigation_loop (fuel : nat) : Exc NavState :=
  let* s0 := init_state in iterate fuel s0.

End Navigation.

(** ** Notions the properties are stated with *)

Definition in_bounds (cfg : Config) (c : cell) : Prop :=
  0 <= c.1 < xlength cfg ∧ 0 <= c.2 < ylength cfg.

(** Positive dimensions, start and end inside the grid. *)
Definition valid_config (cfg : Config) : Prop :=
  0 < xlength cfg ∧ 0 < ylength cfg ∧
  in_bounds cfg (xinit cfg, yinit cfg) ∧ in_bounds cfg (xend cfg, yend cfg).

(** The states at the head of the [while] loop. *)
Inductive reachable (cfg : Config) : NavState → Prop :=
| reach_init s0 :
    init_state cfg = inr s0 → reachable cfg s0
| reach_step s s' :
    reachable cfg s → running s = true → step cfg s = inr s' →
    reachable cfg s'.

(** The in-grid neighbours of a cell in the scan order Up, Left, Right, Down. *)
Definition neighbours (cfg : Config) (x y : Z) : list cell :=
  omap (neighbour cfg x y) [0; 1; 2; 3].

(** The test that puts a neighbour into [freeCells]. *)
Definition is_free (cfg : Config) (s : NavState) (c : cell) : bool :=
  negb (inb (linear_index (xlength cfg) c) (obstacles cfg)) &&
  (negb (inb (linear_index (xlength cfg) c) (robotPath s)) &&
   negb (backtracking s)).

(** The cells of a list whose distance to the target is least, in the order
    of the list. *)
Definition min_cells (target : cell) (cells : list cell) : list cell :=
  filter (λ c, Forall (λ d, distance target c <= distance target d) cells)
         cells.

(** What a pass through the loop body does to the variables of the planner
    (the map apart), by the path taken through the body. *)
Definition moved (cfg : Config) (s s' : NavState) (next : cell) (command : Z)
  : Prop :=
  direction_from_cells (cellX s, cellY s) next = inr command ∧
  cellX s' = next.1 ∧ cellY s' = next.2 ∧
  lastCellX s' = cellX s ∧ lastCellY s' = cellY s ∧
  commands s' = commands s ++ [command] ∧
  finish s' =
    (if (next.1 =? xend cfg) && (next.2 =? yend cfg) then true else finish s) ∧
  unachievable s' =
    (if 200 <=? iterationsRepeated s' then true else unachievable s).

Definition stopped (s s' : NavState) : Prop :=
  cellX s' = cellX s ∧ cellY s' = cellY s ∧
  lastCellX s' = lastCellX s ∧ lastCellY s' = lastCellY s ∧
  robotPath s' = robotPath s ∧ commands s' = commands s ∧
  finish s' = finish s ∧ unachievable s' = true ∧
  iterationsRepeated s' = iterationsRepeated s + 1.

Inductive step_rel (cfg : Config) (s s' : NavState) : Prop :=
| step_forward free obst m next command :
    scan cfg s = inr (free, obst, m) →
    free ≠ [] →
    last (manhattan_nearest_cell_to_target (xend cfg, yend cfg) free)
      = Some next →
    moved cfg s s' next command →
    robotPath s' = robotPath s ++ [linear_index (xlength cfg) next] →
    backtracking s' = backtracking s →
    iterationsRepeated s' = iterationsRepeated s + 1 →
    step_rel cfg s s'
| step_back obst m last_id next command :
    scan cfg s = inr ([], obst, m) →
    iterationsRepeated s + 1 < maxRepeatedIteration →
    (1 < length (robotPath s))%nat →
    last (removelast (robotPath s)) = Some last_id →
    cell_of_index (xlength cfg) last_id = inr next →
    moved cfg s s' next command →
    robotPath s' =
      removelast (robotPath s) ++ [linear_index (xlength cfg) next] →
    backtracking s' = true →
    iterationsRepeated s' = iterationsRepeated s + 2 →
    step_rel cfg s s'
| step_stop_repeated obst m :
    scan cfg s = inr ([], obst, m) →
    maxRepeatedIteration <= iterationsRepeated s + 1 →
    stopped s s' →
    backtracking s' = backtracking s →
    step_rel cfg s s'
| step_stop_empty obst m :
    scan cfg s = inr ([], obst, m) →
    iterationsRepeated s + 1 < maxRepeatedIteration →
    (length (robotPath s) <= 1)%nat →
    stopped s s' →
    backtracking s' = true →
    step_rel cfg s s'.


(** The commands read back from a path: the direction between each two
    consecutive entries, decoded as the backtracking branch decodes them. *)
Fixpoint replay (w : Z) (path : list Z) : Exc (list Z) :=
  match path with
  | p :: (q :: _) as rest =>
      let* a := cell_of_index w p in
      let* b := cell_of_index w q in
      let* c := direction_from_cells a b in
      let* cs := replay w rest in
      ret (c :: cs)
  | _ => ret []
  end.

(** The shape [(ylength, xlength)] of the map. *)
Definition grid_shape (cfg : Config) (m : grid) : Prop :=
  length m = Z.to_nat (ylength cfg) ∧
  Forall (λ row, length row = Z.to_nat (xlength cfg)) m.

(** What holds at every head of the loop when the configuration is valid. *)
Record invariant (cfg : Config) (s : NavState) : Prop := mkInvariant {
  inv_shape : grid_shape cfg (final_map_state s);
  inv_cell : in_bounds cfg (cellX s, cellY s);
  inv_last :
    last (robotPath s) = Some (linear_index (xlength cfg) (cellX s, cellY s));
  inv_count : 0 <= iterationsRepeated s;
  inv_cap : unachievable s = false → iterationsRepeated s < 200;
  inv_back :
    backtracking s = true → running s = true → 2 <= iterationsRepeated s;
  inv_path :
    backtracking s = false →
    Forall (λ p, ∃ c, in_bounds cfg c ∧ p = linear_index (xlength cfg) c)
           (robotPath s);
  inv_replay :
    backtracking s = false →
    replay (xlength cfg) (robotPath s) = inr (commands s);
  inv_finish :
    finish s = true → cellX s = xend cfg ∧ cellY s = yend cfg;
  inv_commands : Forall (λ c, 0 <= c <= 3) (commands s);
  inv_steps : Z.of_nat (length (commands s)) <= iterationsRepeated s
}.

(** Runs of the loop body from one head of the loop to a later one. *)
Inductive steps (cfg : Config) : NavState → NavState → Prop :=
| steps_refl s : steps cfg s s
| steps_step s s1 s2 :
    steps cfg s s1 → running s1 = true → step cfg s1 = inr s2 →
    steps cfg s s2.

(** A pass whose scan finds no free cell is a dead-end detection. *)
Definition is_dead_end (cfg : Config) (s : NavState) : bool :=
  match scan cfg s with
  | inr ([], _, _) => true
  | _ => false
  end.

(** The number of dead-end detections in the passes of the loop from [s]. *)
Fixpoint dead_end_count (cfg : Config) (fuel : nat) (s : NavState) : nat :=
  match fuel with
  | O => O
  | S k =>
      if running s then
        ((if is_dead_end cfg s then 1 else 0) +
         match step cfg s with
         | inr s' => dead_end_count cfg k s'
         | inl _ => 0
         end)%nat
      else O
  end.

(** ** Concrete runs *)

Definition blank_state : NavState :=
  mkNavState 0 0 0 0 [] false false (0, 0) 0 false false [] [].

(** The state at the head of the loop after at most [n] passes. *)
Definition state_after (cfg : Config) (n : nat) : NavState :=
  match run_navigation_loop cfg n with
  | inr s => s
  | inl _ => blank_state
  end.

(** A corridor of four cells, the start in the second, the target in the
    fourth and an obstacle between them. *)
Definition corridor : Config := mkConfig 4 1 1 0 3 0 [3].

(** A grid of a single cell. *)
Definition single_cell : Config := mkConfig 1 1 0 0 0 0 [].

(** ** Notions of the further properties *)

(** The cell a command leads to, after the convention of
    [direction_from_cells]: 0 = top, 1 = left, 2 = right, 3 = bottom. *)
Definition move_by (command : Z) (c : cell) : cell :=
  if command =? 0 then (c.1, c.2 - 1)
  else if command =? 1 then (c.1 - 1, c.2)
  else if command =? 2 then (c.1 + 1, c.2)
  else if command =? 3 then (c.1, c.2 + 1)
  else c.

(** The classification the map holds for a cell: [final_map_state[y, x]]. *)
Definition code (m : grid) (c : cell) : Exc Z := grid_get m c.2 c.1.

(** What holds at every head of the loop, whatever the configuration. *)
Record trace_invariant (cfg : Config) (s : NavState) : Prop :=
  mkTraceInvariant {
  tr_count : 0 <= iterationsRepeated s;
  tr_steps : Z.of_nat (length (commands s)) <= iterationsRepeated s;
  tr_cap : unachievable s = false → iterationsRepeated s < 200;
  tr_commands : (length (commands s) <= 200)%nat;
  tr_back :
    backtracking s = true → running s = true → 2 <= iterationsRepeated s;
  tr_back_commands :
    backtracking s = true → (length (commands s) <= 2)%nat;
  tr_back_finish :
    backtracking s = true → finish s = true → length (commands s) = 2%nat;
  tr_nodup : backtracking s = false → NoDup (robotPath s);
  tr_length :
    backtracking s = false →
    length (robotPath s) = S (length (commands s));
  tr_length_le : (length (robotPath s) <= S (length (commands s)))%nat;
  tr_head :
    head (robotPath s)
      = Some (linear_index (xlength cfg) (xinit cfg, yinit cfg));
  tr_reckoning :
    foldl (λ c command, move_by command c) (xinit cfg, yinit cfg)
          (commands s)
      = (cellX s, cellY s);
  tr_target :
    (xinit cfg, yinit cfg) = (xend cfg, yend cfg) →
    backtracking s = false → finish s = false
}.

(** Two cells side by side; the start is the target. *)
Definition two_cells : Config := mkConfig 2 1 0 0 0 0 [].

(** What one direction of the scan, and so the whole scan, does to the
    code of a cell: nothing, or 6 on an obstacle, or 5 on a cell that held
    0 and is no obstacle. *)
Definition scanned (cfg : Config) (m m' : grid) (c : cell) : Prop :=
  code m' c = code m c ∨
  (code m' c = inr 6 ∧
   inb (linear_index (xlength cfg) c) (obstacles cfg) = true) ∨
  (code m' c = inr 5 ∧ code m c = inr 0 ∧
   inb (linear_index (xlength cfg) c) (obstacles cfg) = false).

(** What the map [m] holds for the cell [c] in the state [s]: a code of
    0..6; 6 only on an obstacle; when the start is no obstacle, a code of
    1..4 on every cell of the path; 2 on the target, when it is neither
    the start nor an obstacle. *)
Definition cell_ok (cfg : Config) (s : NavState) (m : grid) (c : cell)
  : Prop :=
  ∃ v, code m c = inr v ∧ 0 <= v <= 6 ∧
    (v = 6 → inb (linear_index (xlength cfg) c) (obstacles cfg) = true) ∧
    (inb (linear_index (xlength cfg) (xinit cfg, yinit cfg)) (obstacles cfg)
       = false →
     inb (linear_index (xlength cfg) c) (robotPath s) = true →
     1 <= v <= 4) ∧
    ((xinit cfg, yinit cfg) ≠ (xend cfg, yend cfg) →
     inb (linear_index (xlength cfg) (xend cfg, yend cfg)) (obstacles cfg)
       = false →
     c = (xend cfg, yend cfg) → v = 2).

(** What holds of the map and the path at every head of the loop when the
    configuration is valid. *)
Record map_invariant (cfg : Config) (s : NavState) : Prop :=
  mkMapInvariant {
  mi_cells : ∀ c, in_bounds cfg c → cell_ok cfg s (final_map_state s) c;
  mi_path_cells :
    Forall (λ p, ∃ c, in_bounds cfg c ∧ p = linear_index (xlength cfg) c)
           (robotPath s);
  mi_path_free :
    inb (linear_index (xlength cfg) (xinit cfg, yinit cfg)) (obstacles cfg)
      = false →
    Forall (λ p, inb p (obstacles cfg) = false) (robotPath s);
  mi_away :
    (xinit cfg, yinit cfg) ≠ (xend cfg, yend cfg) → running s = true →
    (cellX s, cellY s) ≠ (xend cfg, yend cfg)
}.

(** ** The spike schedule

    Step 4 of the loop body turns the command of the pass into spike times
    for the search and the match populations.  It runs in exactly the
    passes that emit a command and feeds nothing back into the planner, so
    the schedule after a run is the fold of [encode_command] over the
    [commands] of its state.

    The times are floats in the source.  [current_time] starts at 1.0 and
    grows by 50.0 in each of at most 200 passes, and the spike times are
    [current_time + 1.0] and [current_time + 10.0]: all integers far below
    2^53, on which float addition is exact.  [eps = 1e-3] is only compared
    with them.  The rationals below therefore compute the values of the
    source. *)

Record SpikeState : Type := mkSpikeState {
  current_time : Q;
  search_spike_times : list Q;
  match_spike_times : list (list Q)
}.

Definition chunk_ms : Q := 50 # 1.
Definition eps : Q := 1 # 1000.

(** [max(a, b)] of Python: [b] when [b > a], else [a]. *)
Definition py_max (a b : Q) : Q := if Qle_bool b a then a else b.

(** [[t if t > 0.0 else eps for t in times]] *)
Definition safe_times (times : list Q) : list Q :=
  (λ t, if Qle_bool t 0 then eps else t) <$> times.

(** Lines 258-261. *)
Definition spikes_init : SpikeState :=
  mkSpikeState (1 # 1) [] (replicate 4 []).

(** Lines 338-353; a Python list is indexed like an axis of an array. *)
Definition encode_command (st : SpikeState) (command : Z) : Exc SpikeState :=
  let search := search_spike_times st
                  ++ [py_max (current_time st + (1 # 1)) eps] in
  let* i := np_index (length (match_spike_times st)) command in
  match match_spike_times st !! i with
  | None => raise IndexError
  | Some neuron_times =>
      ret {| current_time := current_time st + chunk_ms;
             search_spike_times := search;
             match_spike_times :=
               <[i := neuron_times
                        ++ [py_max (current_time st + (10 # 1)) eps]]>
                 (match_spike_times st) |}
  end.

Fixpoint encode_commands (st : SpikeState) (cmds : list Z) : Exc SpikeState :=
  match cmds with
  | [] => ret st
  | c :: cmds => let* st' := encode_command st c in encode_commands st' cmds
  end.

(** What the search population is set to. *)
Definition safe_search_times (st : SpikeState) : list Q :=
  safe_times (search_spike_times st).

(** What the match population is set to. *)
Definition safe_match_times (st : SpikeState) : list (list Q) :=
  safe_times <$> match_spike_times st.

(** The passes, counted from 0, in which the command [c] was emitted. *)
Definition passes_of (c : Z) (cmds : list Z) : list nat :=
  filter (λ k, cmds !! k = Some c) (seq 0 (length cmds)).

(** The match spikes of the command [c]: one 11 ms into each of its passes,
    a pass taking 50 ms. *)
Definition train (c : Z) (cmds : list Z) : list Q :=
  (λ k : nat, inject_Z (50 * Z.of_nat k + 11)) <$> passes_of c cmds.

(** What holds at every head of the loop on a grid without obstacles,
    until the target is reached: each command has brought the robot one
    step nearer to the target, and no cell of the path is nearer to the
    target than the current cell. *)
Record greedy_invariant (cfg : Config) (s : NavState) : Prop :=
  mkGreedyInvariant {
  gr_exploring : backtracking s = false;
  gr_count : iterationsRepeated s = Z.of_nat (length (commands s));
  gr_distance :
    Z.of_nat (length (commands s))
      + distance (xend cfg, yend cfg) (cellX s, cellY s)
    = distance (xend cfg, yend cfg) (xinit cfg, yinit cfg);
  gr_behind :
    Forall (λ p, ∃ c, in_bounds cfg c ∧ p = linear_index (xlength cfg) c ∧
                      distance (xend cfg, yend cfg) (cellX s, cellY s)
                        <= distance (xend cfg, yend cfg) c)
           (robotPath s);
  gr_achievable : unachievable s = false;
  gr_finish :
    finish s = true ↔ (cellX s, cellY s) = (xend cfg, yend cfg)
}.

(** * Properties *)

(** ** The error monad *)

Lemma bind_inr {A B : Type} (m : Exc A) (f : A → Exc B) (b : B) :
  bind m f = inr b → ∃ a, m = inr a ∧ f a = inr b.
Proof. destruct m as [e|a]; simpl; [discriminate | eauto]. Qed.

Ltac in_app :=
  rewrite ?elem_of_app, ?elem_of_cons, ?list_elem_of_singleton; tauto.

Ltac inv_bind H :=
  let a := fresh "a" in
  let Ha := fresh "Hb" in
  apply bind_inr in H; destruct H as (a & Ha & H).

Tactic Notation "bind_inv" hyp(H) "as" ident(a) ident(Ha) :=
  apply bind_inr in H; destruct H as (a & Ha & H).

Lemma inb_true (x : Z) (l : list Z) : inb x l = true ↔ x ∈ l.
Proof.
  unfold inb. induction l as [|y l IH]; simpl.
  - rewrite elem_of_nil. split; [discriminate | tauto].
  - rewrite elem_of_cons, orb_true_iff, IH, Z.eqb_eq. tauto.
Qed.

Lemma inb_false (x : Z) (l : list Z) : inb x l = false ↔ x ∉ l.
Proof.
  rewrite <- inb_true. destruct (inb x l); split; congruence.
Qed.

(** ** The two cell representations *)

Lemma linear_index_cell_of_index (w id : Z) (c : cell) :
  cell_of_index w id = inr c → linear_index w c = id.
Proof.
  unfold cell_of_index, linear_index.
  destruct (w =? 0) eqn:Hw; [discriminate|].
  intros [= <-]. simpl. apply Z.eqb_neq in Hw.
  pose proof (Z.div_mod (id - 1) w Hw). lia.
Qed.

(** C9: decoding the linear index of an in-bounds cell with the decoding of
    the backtracking branch gives the cell back. *)
Theorem cell_of_index_linear_index (w h x y : Z) :
  0 <= x < w → 0 <= y < h →
  cell_of_index w (linear_index w (x, y)) = inr (x, y).
Proof.
  intros Hx Hy. unfold cell_of_index, linear_index. simpl.
  destruct (w =? 0) eqn:Hw; [apply Z.eqb_eq in Hw; lia|].
  replace (y * w + x + 1 - 1) with (x + y * w) by lia.
  rewrite Z.mod_add, Z.div_add by lia.
  rewrite Z.mod_small, Z.div_small by lia.
  reflexivity.
Qed.

Lemma cell_of_index_linear_index_witness :
  (0 <= 2 < 4 ∧ 0 <= 3 < 4) ∧
  cell_of_index 4 (linear_index 4 (2, 3)) = inr (2, 3).
Proof.
  split; [lia|]. apply (cell_of_index_linear_index 4 4 2 3); lia.
Defined.

(** ** [manhattan_nearest_cell_to_target] *)

Lemma distance_nonneg (t c : cell) : 0 <= distance t c.
Proof. unfold distance. lia. Qed.

Section Filter.

Context {A : Type} (P Q : A → Prop).
Context `{!∀ x, Decision (P x), !∀ x, Decision (Q x)}.

Lemma filter_none (l : list A) : Forall (λ x, ¬ P x) l → filter P l = [].
Proof.
  induction 1 as [|x l Hx _ IH]; [done|].
  by rewrite filter_cons_False.
Qed.

Lemma filter_agree (l : list A) :
  Forall (λ x, P x ↔ Q x) l → filter P l = filter Q l.
Proof.
  induction 1 as [|x l Hx _ IH]; [done|].
  rewrite !filter_cons, IH.
  destruct (decide (P x)), (decide (Q x)); tauto.
Qed.

End Filter.

(** Loop invariant of the [for cell in cells] loop. *)
Lemma nearest_fold_spec (t : cell) (cells : list cell) :
  let r := fold_left (nearest_step t) cells ([], -1) in
  (cells = [] ∧ r = ([], -1)) ∨
  (0 <= r.2 ∧
   Forall (λ d, r.2 <= distance t d) cells ∧
   (∃ c, c ∈ cells ∧ distance t c = r.2) ∧
   r.1 = filter (λ c, distance t c = r.2) cells).
Proof.
  induction cells as [|c cells IH] using rev_ind; simpl; [by left|].
  right. rewrite fold_left_app. simpl.
  pose proof (distance_nonneg t c) as Hc.
  destruct IH as [[-> ->]|(Hr & Hall & (c0 & Hc0 & Hd0) & Hfil)].
  - simpl. destruct (distance t c =? -1) eqn:E; [apply Z.eqb_eq in E; lia|].
    simpl. split_and!; [done| |exists c; split; [in_app|done]|].
    + by repeat constructor.
    + by rewrite filter_cons_True.
  - destruct (fold_left (nearest_step t) cells ([], -1)) as [nc nd] eqn:Hf.
    simpl in *. unfold nearest_step.
    destruct (nd =? -1) eqn:E1; [apply Z.eqb_eq in E1; lia|]. simpl.
    destruct (distance t c <=? nd) eqn:E2.
    + apply Z.leb_le in E2.
      destruct (distance t c =? nd) eqn:E3; simpl.
      * apply Z.eqb_eq in E3. rewrite E3 in *.
        split_and!; [done| |exists c0; split; [in_app|done]|].
        -- apply Forall_app; split; [done|]. repeat constructor. lia.
        -- rewrite filter_app, filter_cons_True by done. by rewrite Hfil.
      * apply Z.eqb_neq in E3.
        split_and!; [done| |exists c; split; [in_app|done]|].
        -- apply Forall_app; split; [|by repeat constructor].
           eapply Forall_impl; [exact Hall|]. simpl. intros; lia.
        -- rewrite filter_app, filter_cons_True by done.
           rewrite filter_none; [done|].
           eapply Forall_impl; [exact Hall|]. simpl. intros; lia.
    + apply Z.leb_gt in E2. simpl.
      split_and!; [done| |exists c0; split; [in_app|done]|].
      * apply Forall_app; split; [done|]. repeat constructor. lia.
      * rewrite filter_app, filter_cons_False by lia.
        by rewrite app_nil_r.
Qed.

(** The function returns the least-distance cells of its input, in input
    order. *)
Lemma manhattan_nearest_min_cells (t : cell) (cells : list cell) :
  manhattan_nearest_cell_to_target t cells = min_cells t cells.
Proof.
  unfold manhattan_nearest_cell_to_target, min_cells.
  destruct (nearest_fold_spec t cells)
    as [[-> ->]|(Hr & Hall & (c0 & Hc0 & Hd0) & ->)]; [done|].
  apply filter_agree, Forall_forall. intros c Hc. split.
  - intros ->. done.
  - intros Hmin. rewrite Forall_forall in Hmin, Hall.
    specialize (Hmin c0 Hc0). specialize (Hall c Hc). lia.
Qed.

(** The last element of a filtered list splits the list. *)
Lemma last_min_cells (t : cell) (cells : list cell) (c : cell) :
  last (min_cells t cells) = Some c →
  ∃ l1 l2, cells = l1 ++ c :: l2 ∧
    Forall (λ d, distance t c <= distance t d) l1 ∧
    Forall (λ d, distance t c < distance t d) l2.
Proof.
  unfold min_cells. intros Hlast.
  pose proof (last_Some_elem_of _ _ Hlast) as Hin.
  apply list_elem_of_filter in Hin as [Hmin _].
  apply last_filter_Some in Hlast as (l1 & l2 & Heq & Hl2).
  exists l1, l2. split; [done|].
  pose proof Hmin as Hmin'. rewrite Heq in Hmin' at 1.
  apply Forall_app in Hmin' as [H1 H2]. split; [done|].
  apply Forall_cons in H2 as [_ H2].
  rewrite Forall_forall in Hl2, H2. apply Forall_forall. intros d Hd.
  specialize (H2 d Hd).
  destruct (decide (distance t d = distance t c)) as [E|]; [|lia].
  exfalso. apply (Hl2 d Hd). by rewrite E.
Qed.

(** ** The neighbour scan *)

Section Scan.

Variable cfg : Config.

Lemma scan_from_free (s : NavState) (ds : list Z) :
  ∀ f o m f' o' m',
    scan_from cfg s ds (f, o, m) = inr (f', o', m') →
    f' = f ++ filter (λ c, is_free cfg s c = true)
                     (omap (neighbour cfg (cellX s) (cellY s)) ds).
Proof.
  induction ds as [|d ds IH]; intros f o m f' o' m' H; simpl in H.
  - injection H as <- <- <-. simpl. by rewrite app_nil_r.
  - inv_bind H. destruct a as [[f1 o1] m1].
    apply IH in H. subst f'. simpl.
    unfold scan_direction in Hb.
    destruct (neighbour cfg (cellX s) (cellY s) d) as [[nx ny]|] eqn:Hn;
      simpl; [|by injection Hb as <- <- <-].
    assert (is_free cfg s (nx, ny) =
            negb (inb (ny * xlength cfg + nx + 1) (obstacles cfg)) &&
            (negb (inb (ny * xlength cfg + nx + 1) (robotPath s)) &&
             negb (backtracking s))) as Hfree by reflexivity.
    destruct (inb (ny * xlength cfg + nx + 1) (obstacles cfg)); simpl in *.
    { inv_bind Hb. injection Hb as <- <- <-.
      by rewrite filter_cons_False by (rewrite Hfree; discriminate). }
    destruct (inb (ny * xlength cfg + nx + 1) (robotPath s)); simpl in *.
    { injection Hb as <- <- <-.
      by rewrite filter_cons_False by (rewrite Hfree; discriminate). }
    destruct (backtracking s); simpl in *.
    { injection Hb as <- <- <-.
      by rewrite filter_cons_False by (rewrite Hfree; discriminate). }
    do 2 inv_bind Hb. injection Hb as <- <- <-.
    rewrite filter_cons_True by done. by rewrite <- app_assoc.
Qed.

(** [freeCells] is the list of neighbours that pass the test, in scan order. *)
Lemma scan_free (s : NavState) (free obst : list cell) (m : grid) :
  scan cfg s = inr (free, obst, m) →
  free = filter (λ c, is_free cfg s c = true)
                (neighbours cfg (cellX s) (cellY s)).
Proof. intros H. by apply scan_from_free in H. Qed.

Lemma scan_backtracking (s : NavState) (free obst : list cell) (m : grid) :
  scan cfg s = inr (free, obst, m) → backtracking s = true → free = [].
Proof.
  intros H Hb. apply scan_free in H. subst free.
  apply filter_none, Forall_forall. intros c _.
  unfold is_free. rewrite Hb, !andb_false_r. discriminate.
Qed.

End Scan.

(** ** One pass through the loop body *)

Lemma commit_inv (cfg : Config) (s s' : NavState) (free : list cell)
    (next : cell) :
  commit cfg s free next = inr s' →
  ∃ command,
    direction_from_cells (cellX s, cellY s) next = inr command ∧
    cellX s' = next.1 ∧ cellY s' = next.2 ∧
    lastCellX s' = cellX s ∧ lastCellY s' = cellY s ∧
    commands s' = commands s ++ [command] ∧
    finish s' =
      (if (next.1 =? xend cfg) && (next.2 =? yend cfg) then true
       else finish s) ∧
    unachievable s' =
      (if 200 <=? iterationsRepeated s' then true else unachievable s) ∧
    robotPath s' = robotPath s ++ [linear_index (xlength cfg) next] ∧
    backtracking s' = backtracking s ∧
    iterationsRepeated s' = iterationsRepeated s + 1.
Proof.
  unfold commit. intros H. bind_inv H as command Hcommand.
  destruct next as [cx cy]. do 2 inv_bind H. injection H as <-.
  exists command. by split_and!.
Qed.

Lemma step_sound (cfg : Config) (s s' : NavState) :
  step cfg s = inr s' → step_rel cfg s s'.
Proof.
  unfold step. intros H. inv_bind H. destruct a as [[free obst] m].
  inv_bind H. destruct free as [|c0 free].
  - unfold dead_end in Hb0.
    destruct (maxRepeatedIteration <=? iterationsRepeated s + 1) eqn:E1.
    { injection Hb0 as <-. injection H as <-. apply Z.leb_le in E1.
      eapply step_stop_repeated; eauto. by split_and!. }
    apply Z.leb_gt in E1.
    destruct (1 <? Z.of_nat (length (robotPath s))) eqn:E2.
    + apply Z.ltb_lt in E2.
      destruct (last (removelast (robotPath s))) as [last_id|] eqn:El;
        [|discriminate].
      bind_inv Hb0 as next Hnext. injection Hb0 as <-.
      apply commit_inv in H as (command & H); simpl in H.
      destruct H as (?&?&?&?&?&?&?&?&?&?&?).
      eapply step_back; eauto; try lia. by split_and!.
    + apply Z.ltb_ge in E2. injection Hb0 as <-. injection H as <-.
      eapply step_stop_empty; eauto; try lia. by split_and!.
  - unfold forward in Hb0.
    destruct (last _) as [nc|] eqn:El; [|discriminate].
    inv_bind Hb0. injection Hb0 as <-.
    apply commit_inv in H as (command & H); simpl in H.
    destruct H as (?&?&?&?&?&?&?&?&?&?&?).
    eapply step_forward; eauto. by split_and!.
Qed.

Lemma state_after_reachable (cfg : Config) (n : nat) (s : NavState) :
  run_navigation_loop cfg n = inr s → reachable cfg s.
Proof.
  unfold run_navigation_loop. intros H. bind_inv H as s0 Hinit.
  apply (reach_init cfg) in Hinit.
  revert s0 Hinit H. induction n as [|n IH]; intros s0 Hs0 H; simpl in H.
  - by injection H as <-.
  - destruct (running s0) eqn:Hrun; [|by injection H as <-].
    bind_inv H as s1 Hstep. eapply IH; [|exact H].
    by eapply reach_step.
Qed.

(** ** The choice of the next cell *)

Lemma neighbours_scan_order (cfg : Config) (x y : Z) :
  neighbours cfg x y
    `sublist_of` [(x, y - 1); (x - 1, y); (x + 1, y); (x, y + 1)].
Proof.
  unfold neighbours, neighbour. simpl.
  destruct (0 <=? y - 1), (0 <=? x - 1), (x + 1 <? xlength cfg),
    (y + 1 <? ylength cfg); simpl;
    repeat first [apply sublist_nil_l | apply sublist_skip
                 | apply sublist_cons].
Qed.

(** C1: in a pass with free neighbours, [freeCells] holds the neighbours that
    pass the test in the scan order Up, Left, Right, Down,
    [manhattan_nearest_cell_to_target] returns its cells of least Manhattan
    distance to the target in that order, and the cell moved to is the last
    of them: every free cell scanned before it is at least as far from the
    target, every free cell scanned after it is strictly farther. *)
Theorem next_cell_nearest_last_scanned (cfg : Config) (s s' : NavState)
    (free obst : list cell) (m : grid) :
  scan cfg s = inr (free, obst, m) →
  free ≠ [] →
  step cfg s = inr s' →
  let target := (xend cfg, yend cfg) in
  let next := (cellX s', cellY s') in
  free = filter (λ c, is_free cfg s c = true)
                (neighbours cfg (cellX s) (cellY s)) ∧
  free `sublist_of` [(cellX s, cellY s - 1); (cellX s - 1, cellY s);
                     (cellX s + 1, cellY s); (cellX s, cellY s + 1)] ∧
  manhattan_nearest_cell_to_target target free = min_cells target free ∧
  last (manhattan_nearest_cell_to_target target free) = Some next ∧
  ∃ l1 l2, free = l1 ++ next :: l2 ∧
    Forall (λ d, distance target next <= distance target d) l1 ∧
    Forall (λ d, distance target next < distance target d) l2.
Proof.
  intros Hscan Hne Hstep target next.
  pose proof (scan_free cfg s free obst m Hscan) as Hfree.
  assert (last (manhattan_nearest_cell_to_target target free) = Some next)
    as Hlast.
  { apply step_sound in Hstep.
    destruct Hstep as [f o m' nx c Hs _ Hl Hm _ _ _|? ? ? ? ? Hs|? ? Hs|? ? Hs];
      rewrite Hscan in Hs; injection Hs as -> -> ->; try done.
    destruct Hm as (_ & Hx & Hy & _). subst next target.
    rewrite Hl, Hx, Hy. by destruct nx. }
  split_and!; [done| |apply manhattan_nearest_min_cells|done|].
  - rewrite Hfree. etrans; [apply sublist_filter|].
    apply neighbours_scan_order.
  - apply last_min_cells. by rewrite <- manhattan_nearest_min_cells.
Qed.

Lemma next_cell_nearest_last_scanned_witness :
  let cfg := experiment_config 1 in
  let free := [(1, 0); (3, 0); (2, 1)] in
  manhattan_nearest_cell_to_target (0, 3) free = min_cells (0, 3) free ∧
  last (manhattan_nearest_cell_to_target (0, 3) free)
    = Some (cellX (state_after cfg 1), cellY (state_after cfg 1)) ∧
  (cellX (state_after cfg 1), cellY (state_after cfg 1)) = (2, 1).
Proof.
  intros cfg free.
  pose proof (next_cell_nearest_last_scanned cfg (state_after cfg 0)
    (state_after cfg 1) free []
    [[0; 5; 1; 5]; [0; 0; 5; 0]; [0; 0; 0; 0]; [2; 0; 0; 0]]) as H.
  destruct H as (_ & _ & H1 & H2 & _);
    [vm_compute; reflexivity | discriminate | vm_compute; reflexivity |].
  split_and!; [exact H1 | exact H2 | vm_compute; reflexivity].
Defined.

(** ** The path and the current cell *)

Lemma init_state_inv (cfg : Config) (s0 : NavState) :
  init_state cfg = inr s0 →
  cellX s0 = xinit cfg ∧ cellY s0 = yinit cfg ∧
  robotPath s0 = [linear_index (xlength cfg) (xinit cfg, yinit cfg)] ∧
  backtracking s0 = false ∧ iterationsRepeated s0 = 0 ∧
  finish s0 = false ∧ unachievable s0 = false ∧ commands s0 = [].
Proof.
  unfold init_state. intros H. do 3 inv_bind H. by injection H as <-.
Qed.

(** C10: at every head of the loop [robotPath] is not empty and its last
    entry is the linear index of the current cell. *)
Theorem path_ends_at_current_cell (cfg : Config) (s : NavState) :
  reachable cfg s →
  robotPath s ≠ [] ∧
  last (robotPath s)
    = Some (linear_index (xlength cfg) (cellX s, cellY s)).
Proof.
  intros Hreach. rewrite <- last_is_Some.
  cut (last (robotPath s)
         = Some (linear_index (xlength cfg) (cellX s, cellY s))).
  { intros ->. eauto. }
  induction Hreach as [s0 Hinit|s s' _ IH _ Hstep].
  - apply init_state_inv in Hinit as (-> & -> & -> & _). done.
  - apply step_sound in Hstep.
    destruct Hstep as [? ? ? [nx ny] ? _ _ _ Hm Hp _ _
                      |? ? ? [nx ny] ? _ _ _ _ _ Hm Hp _ _
                      |? ? _ _ Hst _|? ? _ _ _ Hst _].
    + destruct Hm as (_ & -> & -> & _). by rewrite Hp, last_snoc.
    + destruct Hm as (_ & -> & -> & _). by rewrite Hp, last_snoc.
    + destruct Hst as (-> & -> & _ & _ & -> & _). done.
    + destruct Hst as (-> & -> & _ & _ & -> & _). done.
Qed.

Lemma path_ends_at_current_cell_witness :
  let s := state_after corridor 2 in
  robotPath s = [2; 2] ∧
  last (robotPath s) = Some (linear_index 4 (cellX s, cellY s)).
Proof.
  intros s. split; [vm_compute; reflexivity|].
  apply (path_ends_at_current_cell corridor s).
  apply (state_after_reachable corridor 2). vm_compute. reflexivity.
Defined.

(** ** The path and the obstacles *)

Lemma last_nearest_is_free (cfg : Config) (s : NavState)
    (free obst : list cell) (m : grid) (t next : cell) :
  scan cfg s = inr (free, obst, m) →
  last (manhattan_nearest_cell_to_target t free) = Some next →
  next ∈ neighbours cfg (cellX s) (cellY s) ∧ is_free cfg s next = true.
Proof.
  intros Hscan Hlast. apply scan_free in Hscan.
  rewrite manhattan_nearest_min_cells in Hlast.
  apply last_Some_elem_of in Hlast. unfold min_cells in Hlast.
  apply list_elem_of_filter in Hlast as [_ Hin].
  rewrite Hscan in Hin. apply list_elem_of_filter in Hin. tauto.
Qed.

Lemma last_removelast_elem (l : list Z) (x : Z) :
  last (removelast l) = Some x → x ∈ l.
Proof.
  destruct l as [|y l _] using rev_ind; [done|].
  rewrite removelast_last. intros H%last_Some_elem_of. in_app.
Qed.

Lemma Forall_removelast {A : Type} (P : A → Prop) (l : list A) :
  Forall P l → Forall P (removelast l).
Proof.
  destruct l as [|y l _] using rev_ind; [done|].
  rewrite removelast_last. by intros [? _]%Forall_app.
Qed.

(** C6: when the start cell is no obstacle, no entry of [robotPath] is the
    linear index of an obstacle, at any head of the loop. *)
Theorem path_avoids_obstacles (cfg : Config) (s : NavState) :
  inb (linear_index (xlength cfg) (xinit cfg, yinit cfg)) (obstacles cfg)
    = false →
  reachable cfg s →
  Forall (λ p, inb p (obstacles cfg) = false) (robotPath s).
Proof.
  intros Hstart Hreach.
  induction Hreach as [s0 Hinit|s s' _ IH _ Hstep].
  - apply init_state_inv in Hinit as (_ & _ & -> & _). by repeat constructor.
  - apply step_sound in Hstep.
    destruct Hstep as [? ? ? next ? Hscan _ Hlast _ Hp _ _
                      |? ? last_id next ? _ _ _ Hlast Hdec _ Hp _ _
                      |? ? _ _ Hst _|? ? _ _ _ Hst _].
    + rewrite Hp. apply Forall_app. split; [done|]. repeat constructor.
      destruct (last_nearest_is_free _ _ _ _ _ _ _ Hscan Hlast) as [_ Hf].
      unfold is_free in Hf. apply andb_true_iff in Hf as [Hf _].
      by apply negb_true_iff in Hf.
    + rewrite Hp. apply Forall_app. split; [by apply Forall_removelast|].
      repeat constructor.
      rewrite (linear_index_cell_of_index _ _ _ Hdec).
      apply last_removelast_elem in Hlast.
      rewrite Forall_forall in IH. by apply IH.
    + destruct Hst as (_ & _ & _ & _ & -> & _). done.
    + destruct Hst as (_ & _ & _ & _ & -> & _). done.
Qed.

Lemma path_avoids_obstacles_witness :
  let cfg := experiment_config 3 in
  robotPath (state_after cfg 200) = [3; 4; 10; 16; 22] ∧
  Forall (λ p, inb p (obstacles cfg) = false) (robotPath (state_after cfg 200)).
Proof.
  intros cfg. split; [vm_compute; reflexivity|].
  apply (path_avoids_obstacles cfg (state_after cfg 200)).
  - vm_compute. reflexivity.
  - apply (state_after_reachable cfg 200). vm_compute. reflexivity.
Defined.

(** ** Backtracking *)

Lemma backtracking_step (cfg : Config) (s s' : NavState) :
  backtracking s = true → step cfg s = inr s' →
  backtracking s' = true ∧
  ((unachievable s' = true ∧ robotPath s' = robotPath s) ∨
   (∃ last_id, last (removelast (robotPath s)) = Some last_id ∧
               robotPath s' = removelast (robotPath s) ++ [last_id])).
Proof.
  intros Hb Hstep. apply step_sound in Hstep.
  destruct Hstep as [free ? ? ? ? Hscan Hne _ _ _ _ _
                    |? ? last_id next ? _ _ _ Hlast Hdec _ Hp Hb' _
                    |? ? _ _ Hst Hb'|? ? _ _ _ Hst Hb'].
  - by apply (scan_backtracking cfg) in Hscan.
  - split; [done|]. right. exists last_id. split; [done|].
    by rewrite Hp, (linear_index_cell_of_index _ _ _ Hdec).
  - destruct Hst as (_ & _ & _ & _ & -> & _ & _ & -> & _).
    split; [congruence|by left].
  - destruct Hst as (_ & _ & _ & _ & -> & _ & _ & -> & _).
    split; [done|by left].
Qed.

(** C5: once [backtracking] is true it is true at every later head of the
    loop; there the scan finds no free cell, so the pass takes the dead-end
    arm: it either stops the run or pops the last entry of the path and
    moves to the entry below it. *)
Theorem backtracking_is_permanent (cfg : Config) (s s' : NavState) :
  backtracking s = true →
  steps cfg s s' →
  backtracking s' = true ∧
  (∀ free obst m, scan cfg s' = inr (free, obst, m) → free = []) ∧
  (∀ s'', step cfg s' = inr s'' →
     backtracking s'' = true ∧
     ((unachievable s'' = true ∧ robotPath s'' = robotPath s') ∨
      (∃ last_id, last (removelast (robotPath s')) = Some last_id ∧
                  robotPath s'' = removelast (robotPath s') ++ [last_id]))).
Proof.
  intros Hb Hsteps.
  assert (backtracking s' = true) as Hb'.
  { induction Hsteps as [|s s1 s2 _ IH _ Hstep]; [done|].
    by apply (backtracking_step cfg s1 s2 (IH Hb)). }
  split_and!; [done| |].
  - intros free obst m Hscan. by apply (scan_backtracking cfg s' free obst m).
  - intros s'' Hstep. by apply (backtracking_step cfg).
Qed.

Lemma backtracking_is_permanent_witness :
  let s := state_after corridor 2 in
  let s' := state_after corridor 3 in
  backtracking s = true ∧ backtracking s' = true ∧
  unachievable s' = true ∧ robotPath s' = robotPath s.
Proof.
  intros s s'.
  destruct (backtracking_is_permanent corridor s s) as (H1 & _ & H3).
  - vm_compute. reflexivity.
  - apply steps_refl.
  - destruct (H3 s') as (H4 & _); [vm_compute; reflexivity|].
    split_and!; [exact H1 | exact H4 | vm_compute; reflexivity
                | vm_compute; reflexivity].
Defined.

(** ** The map *)

Lemma np_index_in_range (n : nat) (i : Z) :
  0 <= i < Z.of_nat n → np_index n i = inr (Z.to_nat i).
Proof.
  intros H. unfold np_index.
  destruct (0 <=? i) eqn:E1; [|apply Z.leb_gt in E1; lia].
  destruct (i <? Z.of_nat n) eqn:E2; [done|apply Z.ltb_ge in E2; lia].
Qed.

Section Grid.

Variable cfg : Config.

Lemma np_zeros_shape (m : grid) :
  np_zeros (ylength cfg) (xlength cfg) = inr m → grid_shape cfg m.
Proof.
  unfold np_zeros. destruct (_ || _); [discriminate|]. intros [= <-].
  split; [apply length_replicate|].
  apply Forall_replicate, length_replicate.
Qed.

Lemma grid_set_shape (m m' : grid) (y x v : Z) :
  grid_shape cfg m → grid_set m y x v = inr m' → grid_shape cfg m'.
Proof.
  intros [Hrows Hcols]. unfold grid_set. intros H.
  bind_inv H as r Hr. destruct (m !! r) as [row|] eqn:Hrow; [|discriminate].
  bind_inv H as c Hc. injection H as <-. split.
  - by rewrite length_insert.
  - apply Forall_insert; [done|]. rewrite length_insert.
    by apply (Forall_lookup_1 _ _ _ _ Hcols Hrow).
Qed.

Lemma mark_step_shape (m m' : grid) (y x : Z) :
  grid_shape cfg m → mark_step m y x = inr m' → grid_shape cfg m'.
Proof.
  intros Hm. unfold mark_step. intros H. bind_inv H as v Hv.
  destruct (_ || _); [by injection H as <-|]. by eapply grid_set_shape.
Qed.

Lemma grid_row (m : grid) (x y : Z) :
  grid_shape cfg m → in_bounds cfg (x, y) →
  ∃ row, np_index (length m) y = inr (Z.to_nat y) ∧
         m !! Z.to_nat y = Some row ∧
         np_index (length row) x = inr (Z.to_nat x) ∧
         (Z.to_nat x < length row)%nat.
Proof.
  intros [Hrows Hcols] [Hx Hy]. simpl in *.
  destruct (lookup_lt_is_Some_2 m (Z.to_nat y)) as [row Hrow]; [lia|].
  pose proof (Forall_lookup_1 _ _ _ _ Hcols Hrow) as Hlen. simpl in Hlen.
  exists row. split_and!; [|done| |lia]; apply np_index_in_range; lia.
Qed.

Lemma grid_set_in_bounds (m : grid) (x y v : Z) :
  grid_shape cfg m → in_bounds cfg (x, y) →
  ∃ m', grid_set m y x v = inr m' ∧ grid_shape cfg m'.
Proof.
  intros Hm Hc.
  destruct (grid_row m x y Hm Hc) as (row & Hr & Hrow & Hcol & _).
  assert (∃ m', grid_set m y x v = inr m') as [m' Hset].
  { unfold grid_set. rewrite Hr. simpl. rewrite Hrow, Hcol. simpl. eauto. }
  exists m'. split; [done|]. by eapply grid_set_shape.
Qed.

Lemma grid_get_in_bounds (m : grid) (x y : Z) :
  grid_shape cfg m → in_bounds cfg (x, y) → ∃ v, grid_get m y x = inr v.
Proof.
  intros Hm Hc.
  destruct (grid_row m x y Hm Hc) as (row & Hr & Hrow & Hcol & Hlt).
  destruct (lookup_lt_is_Some_2 row (Z.to_nat x) Hlt) as [v Hv].
  exists v. unfold grid_get. rewrite Hr. simpl. rewrite Hrow, Hcol. simpl.
  by rewrite Hv.
Qed.

Lemma mark_step_in_bounds (m : grid) (x y : Z) :
  grid_shape cfg m → in_bounds cfg (x, y) →
  ∃ m', mark_step m y x = inr m' ∧ grid_shape cfg m'.
Proof.
  intros Hm Hc. unfold mark_step.
  destruct (grid_get_in_bounds m x y Hm Hc) as [v ->]. simpl.
  destruct (_ || _); [by exists m|]. by apply grid_set_in_bounds.
Qed.

End Grid.

(** ** Adjacency *)

Lemma direction_range (a b : cell) (c : Z) :
  direction_from_cells a b = inr c → 0 <= c <= 3.
Proof.
  unfold direction_from_cells. destruct a as [cx cy], b as [nx ny].
  repeat (destruct (_ && _); [intros [= <-]; lia|]). discriminate.
Qed.

(** A move can be taken back. *)
Lemma direction_reverse (a b : cell) (c : Z) :
  direction_from_cells a b = inr c → direction_from_cells b a = inr (3 - c).
Proof.
  unfold direction_from_cells. destruct a as [cx cy], b as [nx ny].
  repeat match goal with
  | |- context [?x =? ?y] =>
      let E := fresh "E" in
      destruct (Z.eqb_spec x y) as [E|E]
  end; simpl; try discriminate; intros [= <-]; try reflexivity; lia.
Qed.

Lemma neighbour_inv (cfg : Config) (x y d : Z) (c : cell) :
  in_bounds cfg (x, y) → neighbour cfg x y d = Some c →
  in_bounds cfg c ∧ direction_from_cells (x, y) c = inr d.
Proof.
  intros [Hx Hy]. unfold neighbour, in_bounds, direction_from_cells.
  simpl in *.
  repeat match goal with
  | |- context [if ?b1 && ?b2 then _ else _] =>
      let E := fresh "E" in
      destruct (b1 && b2) eqn:E;
      [apply andb_true_iff in E as [?%Z.eqb_eq ?]|]
  end; [..|discriminate]; intros [= <-]; simpl; subst d;
  repeat match goal with
  | H : (_ <=? _) = true |- _ => apply Z.leb_le in H
  | H : (_ <? _) = true |- _ => apply Z.ltb_lt in H
  end;
  (split; [lia|]);
  repeat match goal with
  | |- context [?a =? ?b] =>
      let E := fresh "E" in
      destruct (Z.eqb_spec a b) as [E|E]; simpl; try lia
  end; reflexivity.
Qed.

Lemma neighbours_inv (cfg : Config) (x y : Z) (c : cell) :
  in_bounds cfg (x, y) → c ∈ neighbours cfg x y →
  in_bounds cfg c ∧ ∃ d, direction_from_cells (x, y) c = inr d.
Proof.
  intros Hb (d & _ & Hd)%list_elem_of_omap.
  destruct (neighbour_inv cfg x y d c Hb Hd). eauto.
Qed.

(** ** Reading the commands back from the path *)

Lemma replay_cons (w p q : Z) (rest : list Z) :
  replay w (p :: q :: rest) =
    let* a := cell_of_index w p in
    let* b := cell_of_index w q in
    let* c := direction_from_cells a b in
    let* cs := replay w (q :: rest) in
    ret (c :: cs).
Proof. reflexivity. Qed.

Lemma replay_snoc (w : Z) (l : list Z) (p q c : Z) (a b : cell) :
  cell_of_index w p = inr a → cell_of_index w q = inr b →
  direction_from_cells a b = inr c →
  ∀ cs, replay w (l ++ [p]) = inr cs →
        replay w (l ++ [p; q]) = inr (cs ++ [c]).
Proof.
  intros Ha Hb Hc. induction l as [|x l IH]; intros cs H.
  - injection H as <-. simpl. by rewrite Ha, Hb; simpl; rewrite Hc.
  - destruct (l ++ [p]) as [|y rest] eqn:E1;
      [by destruct l|].
    assert (∃ rest', l ++ [p; q] = y :: rest') as [rest' E2].
    { destruct l; simplify_eq/=; eauto. }
    simpl app in *. rewrite E1 in H. rewrite E2.
    rewrite replay_cons in *.
    bind_inv H as a1 H1. bind_inv H as a2 H2. bind_inv H as c1 H3.
    bind_inv H as cs1 H4. injection H as <-.
    rewrite <- E2, (IH cs1 H4), H1, H2. simpl. by rewrite H3.
Qed.

Lemma replay_last_pair (w : Z) (l cs : list Z) (p q : Z) :
  replay w (l ++ [p; q]) = inr cs →
  ∃ a b c, cell_of_index w p = inr a ∧ cell_of_index w q = inr b ∧
           direction_from_cells a b = inr c.
Proof.
  revert cs. induction l as [|x l IH]; intros cs H.
  - simpl in H. bind_inv H as a Ha. bind_inv H as b Hb.
    bind_inv H as c Hc. by exists a, b, c.
  - assert (∃ y rest, l ++ [p; q] = y :: rest) as (y & rest & E).
    { destruct l; simplify_eq/=; eauto. }
    simpl app in H. rewrite E, replay_cons in H.
    do 3 inv_bind H. bind_inv H as cs1 H4. rewrite <- E in H4.
    by apply (IH cs1).
Qed.

(** ** The loop body does not raise *)

Section Progress.

Variable cfg : Config.

Lemma cell_of_index_in_bounds (c : cell) :
  in_bounds cfg c →
  cell_of_index (xlength cfg) (linear_index (xlength cfg) c) = inr c.
Proof.
  destruct c as [x y]. intros [Hx Hy]. simpl in *.
  unfold cell_of_index, linear_index. simpl.
  destruct (xlength cfg =? 0) eqn:Hw; [apply Z.eqb_eq in Hw; lia|].
  replace (y * xlength cfg + x + 1 - 1) with (x + y * xlength cfg) by lia.
  rewrite Z.mod_add, Z.div_add by lia.
  by rewrite Z.mod_small, Z.div_small by lia.
Qed.

Lemma scan_direction_shape (s : NavState) (d : Z) (f o f' o' : list cell)
    (m m' : grid) :
  grid_shape cfg m →
  scan_direction cfg s (f, o, m) d = inr (f', o', m') →
  grid_shape cfg m'.
Proof.
  intros Hm. unfold scan_direction.
  destruct (neighbour _ _ _ _) as [[nx ny]|]; [|by intros [= _ _ <-]].
  destruct (inb _ (obstacles cfg)).
  { intros H. bind_inv H as m1 H1. injection H as _ _ <-.
    by eapply grid_set_shape. }
  destruct (_ && _); [|by intros [= _ _ <-]].
  intros H. bind_inv H as v Hv. bind_inv H as m1 H1. injection H as _ _ <-.
  destruct (v =? 0); [by eapply grid_set_shape|by injection H1 as <-].
Qed.

Lemma scan_from_shape (s : NavState) (ds : list Z) :
  ∀ f o m f' o' m',
    grid_shape cfg m →
    scan_from cfg s ds (f, o, m) = inr (f', o', m') →
    grid_shape cfg m'.
Proof.
  induction ds as [|d ds IH]; intros f o m f' o' m' Hm H; simpl in H.
  - by injection H as _ _ <-.
  - bind_inv H as acc Hacc. destruct acc as [[f1 o1] m1].
    eapply IH; [|exact H]. by eapply scan_direction_shape.
Qed.

Lemma scan_direction_ok (s : NavState) (d : Z) (f o : list cell) (m : grid) :
  grid_shape cfg m → in_bounds cfg (cellX s, cellY s) →
  ∃ acc, scan_direction cfg s (f, o, m) d = inr acc.
Proof.
  intros Hm Hc. unfold scan_direction.
  destruct (neighbour _ _ _ _) as [[nx ny]|] eqn:Hn; [|by eexists].
  apply neighbour_inv in Hn as [Hn _]; [|done].
  destruct (inb _ (obstacles cfg)).
  { destruct (grid_set_in_bounds cfg m nx ny 6 Hm Hn) as (m1 & -> & _).
    by eexists. }
  destruct (_ && _); [|by eexists].
  destruct (grid_get_in_bounds cfg m nx ny Hm Hn) as [v ->]. simpl.
  destruct (v =? 0); [|by eexists].
  destruct (grid_set_in_bounds cfg m nx ny 5 Hm Hn) as (m1 & -> & _).
  by eexists.
Qed.

Lemma scan_from_ok (s : NavState) (ds : list Z) :
  in_bounds cfg (cellX s, cellY s) →
  ∀ f o m, grid_shape cfg m →
    ∃ f' o' m', scan_from cfg s ds (f, o, m) = inr (f', o', m') ∧
                grid_shape cfg m'.
Proof.
  intros Hc. induction ds as [|d ds IH]; intros f o m Hm; cbn [scan_from].
  - by exists f, o, m.
  - destruct (scan_direction_ok s d f o m Hm Hc) as [[[f1 o1] m1] H1].
    rewrite H1. simpl. apply IH. by eapply scan_direction_shape.
Qed.

Lemma scan_ok (s : NavState) :
  invariant cfg s →
  ∃ free obst m, scan cfg s = inr (free, obst, m) ∧ grid_shape cfg m.
Proof.
  intros Hinv. apply scan_from_ok; [apply Hinv|apply Hinv].
Qed.

Lemma manhattan_nearest_last (t : cell) (cells : list cell) :
  cells ≠ [] → ∃ next, last (manhattan_nearest_cell_to_target t cells) = Some next.
Proof.
  intros Hne. apply last_is_Some.
  unfold manhattan_nearest_cell_to_target.
  destruct (nearest_fold_spec t cells)
    as [[-> _]|(_ & _ & (c & Hc & Hd) & ->)]; [done|].
  intros Hnil. by apply (filter_nil_not_elem_of _ _ c Hnil Hd).
Qed.

Lemma commit_ok (s : NavState) (free : list cell) (next : cell) (c : Z) :
  grid_shape cfg (final_map_state s) →
  in_bounds cfg (cellX s, cellY s) → in_bounds cfg next →
  direction_from_cells (cellX s, cellY s) next = inr c →
  ∃ s', commit cfg s free next = inr s'.
Proof.
  intros Hm Hc Hn Hd. unfold commit. rewrite Hd. simpl.
  destruct next as [cx cy].
  assert (∃ m1, (if 1 <? Z.of_nat (length free)
                 then grid_set (final_map_state s) (cellY s) (cellX s) 4
                 else ret (final_map_state s)) = inr m1 ∧
                grid_shape cfg m1) as (m1 & -> & Hm1).
  { destruct (1 <? _); [by apply grid_set_in_bounds|by eexists]. }
  simpl.
  assert (∃ m2, (if (cx =? xend cfg) && (cy =? yend cfg)
                 then grid_set m1 cy cx 2 else mark_step m1 cy cx) = inr m2)
    as (m2 & ->).
  { destruct (_ && _).
    - destruct (grid_set_in_bounds cfg m1 cx cy 2 Hm1 Hn) as (? & ? & _).
      eauto.
    - destruct (mark_step_in_bounds cfg m1 cx cy Hm1 Hn) as (? & ? & _).
      eauto. }
  simpl. by eexists.
Qed.

(** The path of a state that is still exploring, when it has at least two
    entries: the entry below the top is a cell of the grid next to the
    current cell. *)
Lemma path_below_top (s : NavState) :
  invariant cfg s → backtracking s = false →
  (1 < length (robotPath s))%nat →
  ∃ l p prev c,
    robotPath s = l ++ [p; linear_index (xlength cfg) (cellX s, cellY s)] ∧
    in_bounds cfg prev ∧ p = linear_index (xlength cfg) prev ∧
    direction_from_cells (cellX s, cellY s) prev = inr c.
Proof.
  intros Hinv Hb Hlen.
  pose proof (inv_last _ _ Hinv) as Hlast.
  apply last_Some in Hlast as [l' Hl'].
  destruct l' as [|p l _] using rev_ind.
  { rewrite Hl' in Hlen. simpl in Hlen. lia. }
  rewrite <- app_assoc in Hl'. simpl in Hl'.
  pose proof (inv_path _ _ Hinv Hb) as Hpath.
  pose proof (inv_replay _ _ Hinv Hb) as Hreplay.
  rewrite Hl' in Hpath, Hreplay.
  apply Forall_app in Hpath as [_ Hpath].
  apply Forall_cons in Hpath as [(prev & Hprev & ->) _].
  apply replay_last_pair in Hreplay as (a & b & c & Ha & Hb' & Hc).
  rewrite cell_of_index_in_bounds in Ha, Hb' by (done || apply Hinv).
  injection Ha as <-. injection Hb' as <-.
  exists l, (linear_index (xlength cfg) prev), prev, (3 - c).
  split_and!; [done..|]. by apply direction_reverse.
Qed.

Lemma step_ok (s : NavState) :
  invariant cfg s → running s = true → ∃ s', step cfg s = inr s'.
Proof.
  intros Hinv Hrun. unfold step.
  destruct (scan_ok s Hinv) as (free & obst & m & Hscan & Hm).
  rewrite Hscan. simpl. destruct free as [|c0 free].
  - unfold dead_end.
    destruct (maxRepeatedIteration <=? _) eqn:E1; [by eexists|].
    apply Z.leb_gt in E1. unfold maxRepeatedIteration in E1.
    destruct (1 <? _) eqn:E2; [|by eexists]. apply Z.ltb_lt in E2.
    assert (backtracking s = false) as Hb.
    { destruct (backtracking s) eqn:Hb; [|done].
      pose proof (inv_back _ _ Hinv Hb Hrun). lia. }
    destruct (path_below_top s Hinv Hb) as (l & p & prev & c & Hp & ? & -> & ?);
      [lia|].
    rewrite Hp.
    replace (l ++ [linear_index (xlength cfg) prev;
                   linear_index (xlength cfg) (cellX s, cellY s)])
      with ((l ++ [linear_index (xlength cfg) prev]) ++
            [linear_index (xlength cfg) (cellX s, cellY s)])
      by (by rewrite <- app_assoc).
    rewrite removelast_last, last_snoc, cell_of_index_in_bounds by done.
    simpl. eapply commit_ok; simpl; eauto; apply Hinv.
  - unfold forward.
    destruct (manhattan_nearest_last (xend cfg, yend cfg) (c0 :: free))
      as [next Hnext]; [done|].
    rewrite Hnext.
    destruct (last_nearest_is_free _ _ _ _ _ _ _ Hscan Hnext) as [Hin _].
    apply neighbours_inv in Hin as (Hin & c & Hc); [|apply Hinv].
    destruct (mark_step_in_bounds cfg m (cellX s) (cellY s) Hm)
      as (m' & -> & Hm'); [apply Hinv|].
    simpl. eapply commit_ok; simpl; eauto; apply Hinv.
Qed.

End Progress.

(** ** The invariant *)

Lemma commit_shape (cfg : Config) (s s' : NavState) (free : list cell)
    (next : cell) :
  grid_shape cfg (final_map_state s) →
  commit cfg s free next = inr s' →
  grid_shape cfg (final_map_state s').
Proof.
  intros Hm. unfold commit. intros H. inv_bind H. destruct next as [cx cy].
  bind_inv H as m1 H1. bind_inv H as m2 H2. injection H as <-. simpl.
  assert (grid_shape cfg m1) as Hm1.
  { destruct (1 <? _); [by eapply grid_set_shape|by injection H1 as <-]. }
  destruct (_ && _); [by eapply grid_set_shape|by eapply mark_step_shape].
Qed.

Lemma step_shape (cfg : Config) (s s' : NavState) :
  grid_shape cfg (final_map_state s) →
  step cfg s = inr s' →
  grid_shape cfg (final_map_state s').
Proof.
  intros Hm. unfold step. intros H. bind_inv H as acc Hscan.
  destruct acc as [[free obst] m]. bind_inv H as d Hd.
  apply scan_from_shape in Hscan; [|done].
  destruct free as [|c0 free].
  - unfold dead_end in Hd.
    destruct (maxRepeatedIteration <=? _).
    { injection Hd as <-. by injection H as <-. }
    destruct (1 <? _).
    + destruct (last _); [|discriminate]. inv_bind Hd. injection Hd as <-.
      by eapply commit_shape; [|exact H].
    + injection Hd as <-. by injection H as <-.
  - unfold forward in Hd. destruct (last _); [|discriminate].
    bind_inv Hd as m' Hm'. injection Hd as <-.
    eapply commit_shape; [|exact H]. simpl. by eapply mark_step_shape.
Qed.

Section Invariant.

Variable cfg : Config.
Hypothesis Hvalid : valid_config cfg.

Lemma invariant_init : ∃ s0, init_state cfg = inr s0 ∧ invariant cfg s0.
Proof.
  destruct Hvalid as (Hw & Hh & Hstart & Hend).
  unfold init_state.
  destruct (np_zeros (ylength cfg) (xlength cfg)) as [e|m0] eqn:H0.
  { unfold np_zeros in H0.
    destruct (ylength cfg <? 0) eqn:E1; [apply Z.ltb_lt in E1; lia|].
    destruct (xlength cfg <? 0) eqn:E2; [apply Z.ltb_lt in E2; lia|].
    discriminate. }
  apply np_zeros_shape in H0. simpl.
  destruct (grid_set_in_bounds cfg m0 _ _ 1 H0 Hstart) as (m1 & -> & H1).
  simpl.
  destruct (grid_set_in_bounds cfg m1 _ _ 2 H1 Hend) as (m2 & -> & H2).
  simpl. eexists. split; [reflexivity|].
  constructor; simpl; try done; try lia.
  - intros _. repeat constructor. by exists (xinit cfg, yinit cfg).
Qed.

Lemma invariant_step (s s' : NavState) :
  invariant cfg s → running s = true → step cfg s = inr s' →
  invariant cfg s'.
Proof.
  intros Hinv Hrun Hstep.
  pose proof (step_shape cfg s s' (inv_shape _ _ Hinv) Hstep) as Hshape.
  apply andb_true_iff in Hrun as Hfu. destruct Hfu as [Hf Hu].
  apply negb_true_iff in Hf, Hu.
  apply step_sound in Hstep.
  destruct Hstep as [free ? ? next c Hscan Hne Hlast Hm Hp Hb Hit
                    |? ? last_id next c _ Hlt Hlen Hlast Hdec Hm Hp Hb Hit
                    |? ? _ _ Hst Hb|? ? _ _ _ Hst Hb].
  - (* forward *)
    destruct Hm as (Hc & Hx & Hy & _ & _ & Hcmd & Hfin & Hun).
    destruct (last_nearest_is_free _ _ _ _ _ _ _ Hscan Hlast) as [Hin _].
    apply neighbours_inv in Hin as [Hin _]; [|apply Hinv].
    assert (backtracking s = false) as Hbs.
    { destruct (backtracking s) eqn:E; [|done].
      by apply (scan_backtracking cfg) in Hscan. }
    assert (next = (cellX s', cellY s')) as Hnext
      by (rewrite Hx, Hy; by destruct next).
    pose proof (inv_count _ _ Hinv).
    constructor; try done.
    + by rewrite <- Hnext.
    + by rewrite Hp, last_snoc, Hnext.
    + lia.
    + rewrite Hun. destruct (Z.leb_spec 200 (iterationsRepeated s')); [done|].
      intros _. lia.
    + intros E. congruence.
    + intros _. rewrite Hp. apply Forall_app. split; [by apply Hinv|].
      repeat constructor. by exists next.
    + intros _. rewrite Hp, Hcmd.
      pose proof (inv_last _ _ Hinv) as Hl.
      apply last_Some in Hl as [l Hl]. rewrite Hl, <- app_assoc. simpl.
      eapply replay_snoc; try done.
      * apply cell_of_index_in_bounds, Hinv.
      * by apply cell_of_index_in_bounds.
      * rewrite <- Hl. by apply Hinv.
    + rewrite Hfin, Hf. destruct (_ && _) eqn:E; [|done].
      intros _. apply andb_true_iff in E as [?%Z.eqb_eq ?%Z.eqb_eq].
      rewrite Hx, Hy. done.
    + rewrite Hcmd. apply Forall_app. split; [apply Hinv|].
      apply Forall_cons. split; [by apply direction_range in Hc|constructor].
    + rewrite Hcmd, length_app. simpl.
      pose proof (inv_steps _ _ Hinv). lia.
  - (* backtracking *)
    destruct Hm as (Hc & Hx & Hy & _ & _ & Hcmd & Hfin & Hun).
    unfold maxRepeatedIteration in Hlt.
    assert (backtracking s = false) as Hbs.
    { destruct (backtracking s) eqn:E; [|done].
      pose proof (inv_back _ _ Hinv E Hrun). lia. }
    assert (in_bounds cfg next ∧ last_id = linear_index (xlength cfg) next)
      as [Hin ->].
    { apply last_removelast_elem in Hlast.
      pose proof (inv_path _ _ Hinv Hbs) as Hpath.
      rewrite Forall_forall in Hpath.
      destruct (Hpath _ Hlast) as (c' & Hc' & ->).
      rewrite cell_of_index_in_bounds in Hdec by done.
      by injection Hdec as <-. }
    assert (next = (cellX s', cellY s')) as Hnext
      by (rewrite Hx, Hy; by destruct next).
    pose proof (inv_count _ _ Hinv).
    constructor; try done.
    + by rewrite <- Hnext.
    + by rewrite Hp, last_snoc, Hnext.
    + lia.
    + rewrite Hun. destruct (Z.leb_spec 200 (iterationsRepeated s')); [done|].
      intros _. lia.
    + intros _ _. lia.
    + intros E. congruence.
    + intros E. congruence.
    + rewrite Hfin, Hf. destruct (_ && _) eqn:E; [|done].
      intros _. apply andb_true_iff in E as [?%Z.eqb_eq ?%Z.eqb_eq].
      rewrite Hx, Hy. done.
    + rewrite Hcmd. apply Forall_app. split; [apply Hinv|].
      apply Forall_cons. split; [by apply direction_range in Hc|constructor].
    + rewrite Hcmd, length_app. simpl.
      pose proof (inv_steps _ _ Hinv). lia.
  - (* the repeated dead end stops the run *)
    destruct Hst as (Hx & Hy & _ & _ & Hp & Hcmd & Hfin & Hun & Hit).
    pose proof (inv_count _ _ Hinv). pose proof (inv_steps _ _ Hinv).
    constructor; rewrite ?Hx, ?Hy, ?Hp, ?Hcmd, ?Hfin, ?Hb, ?Hit;
      try apply Hinv; try lia; try congruence.
    intros _. unfold running. rewrite Hun, andb_false_r. discriminate.
  - (* nothing to go back to *)
    destruct Hst as (Hx & Hy & _ & _ & Hp & Hcmd & Hfin & Hun & Hit).
    pose proof (inv_count _ _ Hinv). pose proof (inv_steps _ _ Hinv).
    constructor; rewrite ?Hx, ?Hy, ?Hp, ?Hcmd, ?Hfin, ?Hb, ?Hit;
      try apply Hinv; try lia; try congruence.
    intros _. unfold running. rewrite Hun, andb_false_r. discriminate.
Qed.

Lemma invariant_reachable (s : NavState) :
  reachable cfg s → invariant cfg s.
Proof.
  induction 1 as [s0 Hinit|s s' _ IH Hrun Hstep].
  - destruct invariant_init as (s1 & H1 & Hinv). congruence.
  - by eapply invariant_step.
Qed.

End Invariant.

(** ** Termination *)

Lemma step_counts (cfg : Config) (s s' : NavState) :
  step cfg s = inr s' →
  iterationsRepeated s < iterationsRepeated s' ∧
  (200 <= iterationsRepeated s' → unachievable s' = true).
Proof.
  intros Hstep. apply step_sound in Hstep.
  destruct Hstep as [? ? ? ? ? _ _ _ Hm _ _ Hit
                    |? ? ? ? ? _ _ _ _ _ Hm _ _ Hit
                    |? ? _ _ Hst _|? ? _ _ _ Hst _].
  - destruct Hm as (_ & _ & _ & _ & _ & _ & _ & ->). split; [lia|].
    intros H. by destruct (Z.leb_spec 200 (iterationsRepeated s')); [|lia].
  - destruct Hm as (_ & _ & _ & _ & _ & _ & _ & ->). split; [lia|].
    intros H. by destruct (Z.leb_spec 200 (iterationsRepeated s')); [|lia].
  - destruct Hst as (_ & _ & _ & _ & _ & _ & _ & -> & ->). split; [lia|done].
  - destruct Hst as (_ & _ & _ & _ & _ & _ & _ & -> & ->). split; [lia|done].
Qed.

Lemma iterate_terminates (cfg : Config) :
  valid_config cfg →
  ∀ (n : nat) (s : NavState),
    invariant cfg s → 200 - iterationsRepeated s <= Z.of_nat n →
    ∃ s', iterate cfg n s = inr s' ∧ running s' = false ∧ invariant cfg s'.
Proof.
  intros Hvalid n. induction n as [|n IH]; intros s Hinv Hn; simpl.
  - exists s. split_and!; [done| |done].
    unfold running. destruct (unachievable s) eqn:Hu;
      [by rewrite andb_false_r|].
    pose proof (inv_cap _ _ Hinv Hu). lia.
  - destruct (running s) eqn:Hrun; [|by exists s].
    destruct (step_ok cfg s Hinv Hrun) as [s1 Hstep]. rewrite Hstep. simpl.
    apply IH; [by eapply invariant_step|].
    apply step_counts in Hstep as [? _]. lia.
Qed.

(** C4: on a valid configuration the loop leaves within 200 passes without
    raising, with [finish] or [unachievable] set; [finish] is set only at the
    target; each pass increases [iterationsRepeated], and a pass that brings
    it to 200 sets [unachievable]. *)
Theorem navigation_terminates (cfg : Config) :
  valid_config cfg →
  ∃ s, run_navigation_loop cfg 200 = inr s ∧
       ((finish s = true ∧ cellX s = xend cfg ∧ cellY s = yend cfg) ∨
        unachievable s = true) ∧
       (∀ s1 s2, step cfg s1 = inr s2 →
          iterationsRepeated s1 < iterationsRepeated s2 ∧
          (200 <= iterationsRepeated s2 → unachievable s2 = true)).
Proof.
  intros Hvalid. unfold run_navigation_loop.
  destruct (invariant_init cfg Hvalid) as (s0 & -> & Hinv0). simpl.
  destruct (iterate_terminates cfg Hvalid 200 s0 Hinv0)
    as (s & Hs & Hrun & Hinv).
  { pose proof (inv_count _ _ Hinv0). lia. }
  exists s. split_and!; [done| |apply step_counts].
  unfold running in Hrun.
  destruct (finish s) eqn:Hf; [|destruct (unachievable s); by auto].
  left. split; [done|]. by apply Hinv.
Qed.

Lemma navigation_terminates_witness :
  ∃ s, run_navigation_loop (experiment_config 2) 200 = inr s ∧
       ((finish s = true ∧ cellX s = 5 ∧ cellY s = 5) ∨
        unachievable s = true).
Proof.
  destruct (navigation_terminates (experiment_config 2)) as (s & H1 & H2 & _).
  - unfold valid_config, in_bounds. simpl. lia.
  - exists s. by split.
Defined.

(** ** The emitted commands *)

(** C7 (as the code has it): on a valid configuration every pass of the loop
    runs without raising; when it emits a command, the command is one of
    0..3 and is [direction_from_cells] of the cell left and the cell
    entered, which the pass records as the previous and the current cell;
    as long as the run has not backtracked the commands emitted so far are
    the directions between consecutive entries of [robotPath]. *)
Theorem emitted_command_is_move (cfg : Config) (s : NavState) :
  valid_config cfg → reachable cfg s → running s = true →
  ∃ s', step cfg s = inr s' ∧
    ((commands s' = commands s ∧ unachievable s' = true) ∨
     (∃ c, commands s' = commands s ++ [c] ∧ 0 <= c <= 3 ∧
           lastCellX s' = cellX s ∧ lastCellY s' = cellY s ∧
           direction_from_cells (lastCellX s', lastCellY s')
                                (cellX s', cellY s') = inr c)) ∧
    (backtracking s' = false →
     replay (xlength cfg) (robotPath s') = inr (commands s')).
Proof.
  intros Hvalid Hreach Hrun.
  pose proof (invariant_reachable cfg Hvalid s Hreach) as Hinv.
  destruct (step_ok cfg s Hinv Hrun) as [s' Hstep].
  exists s'. split; [done|].
  pose proof (invariant_step cfg s s' Hinv Hrun Hstep) as Hinv'.
  split; [|apply Hinv'].
  apply step_sound in Hstep.
  assert (∀ next c, moved cfg s s' next c →
    ∃ c, commands s' = commands s ++ [c] ∧ 0 <= c <= 3 ∧
         lastCellX s' = cellX s ∧ lastCellY s' = cellY s ∧
         direction_from_cells (lastCellX s', lastCellY s')
                              (cellX s', cellY s') = inr c) as Hmoved.
  { intros [nx ny] c (Hc & -> & -> & -> & -> & -> & _). exists c.
    split_and!; try done; apply direction_range in Hc; lia. }
  destruct Hstep as [? ? ? next c _ _ _ Hm _ _ _
                    |? ? ? next c _ _ _ _ _ Hm _ _ _
                    |? ? _ _ Hst _|? ? _ _ _ Hst _].
  - right. by apply (Hmoved next c).
  - right. by apply (Hmoved next c).
  - left. by destruct Hst as (_ & _ & _ & _ & _ & -> & _ & -> & _).
  - left. by destruct Hst as (_ & _ & _ & _ & _ & -> & _ & -> & _).
Qed.

Lemma emitted_command_is_move_witness :
  let s := state_after corridor 1 in
  let s' := state_after corridor 2 in
  step corridor s = inr s' ∧ commands s' = commands s ++ [2] ∧
  direction_from_cells (lastCellX s', lastCellY s') (cellX s', cellY s')
    = inr 2.
Proof.
  intros s s'.
  destruct (emitted_command_is_move corridor s) as (s1 & Hstep & _).
  - unfold valid_config, in_bounds. simpl. lia.
  - apply (state_after_reachable corridor 1). vm_compute. reflexivity.
  - vm_compute. reflexivity.
  - assert (s1 = s') as -> by (vm_compute in Hstep; by injection Hstep as <-).
    split; [exact Hstep|]. split; vm_compute; reflexivity.
Defined.

(** C7 as stated fails after a backtracking pass: the pop removes the cell
    that is left, so the last two entries of [robotPath] are equal and
    [direction_from_cells] of them raises, while a command was emitted. *)
Lemma backtracking_command_not_in_path :
  let s := state_after corridor 2 in
  run_navigation_loop corridor 2 = inr s ∧
  commands s = [1; 2] ∧ robotPath s = [2; 2] ∧
  cell_of_index 4 2 = inr (1, 0) ∧
  direction_from_cells (1, 0) (1, 0) = inl ValueError ∧
  replay (xlength corridor) (robotPath s) = inl ValueError.
Proof. intros s. split_and!; vm_compute; reflexivity. Qed.

(** ** Dead ends *)

(** C2 (as the code has it): a pass that finds no free neighbour increases
    [iterationsRepeated], and sets [unachievable] exactly when the counter
    plus one has reached [maxRepeatedIteration] or [robotPath] has a single
    entry, leaving the path and the commands as they are; otherwise it sets
    [backtracking], pops the path, moves to the entry below and emits the
    command of that move. *)
Theorem dead_end_pass (cfg : Config) (s s' : NavState) (obst : list cell)
    (m : grid) :
  running s = true →
  scan cfg s = inr ([], obst, m) →
  step cfg s = inr s' →
  iterationsRepeated s < iterationsRepeated s' ∧
  (unachievable s' = true ↔
     maxRepeatedIteration <= iterationsRepeated s + 1 ∨
     (length (robotPath s) <= 1)%nat) ∧
  (unachievable s' = true →
     iterationsRepeated s' = iterationsRepeated s + 1 ∧
     robotPath s' = robotPath s ∧ commands s' = commands s) ∧
  (unachievable s' = false →
     backtracking s' = true ∧
     ∃ last_id c,
       last (removelast (robotPath s)) = Some last_id ∧
       robotPath s' = removelast (robotPath s) ++ [last_id] ∧
       commands s' = commands s ++ [c]).
Proof.
  intros Hrun Hscan Hstep.
  apply andb_true_iff in Hrun as [_ Hu]. apply negb_true_iff in Hu.
  apply step_sound in Hstep.
  destruct Hstep as [free ? ? ? ? Hs Hne _ _ _ _ _
                    |? ? last_id next c _ Hlt Hlen Hlast Hdec Hm Hp Hb Hit
                    |? ? _ Hge Hst _|? ? _ Hlt Hlen Hst _].
  - rewrite Hscan in Hs. by injection Hs as <- _ _.
  - destruct Hm as (_ & _ & _ & _ & _ & Hcmd & _ & Hun).
    unfold maxRepeatedIteration in *.
    assert (unachievable s' = false) as Hu'.
    { rewrite Hun, Hu.
      destruct (Z.leb_spec 200 (iterationsRepeated s')); [lia|done]. }
    rewrite Hu'. split_and!; [lia| |done|].
    + split; [done|]. intros [?|?]; lia.
    + intros _. split; [done|]. exists last_id, c.
      by rewrite Hp, (linear_index_cell_of_index _ _ _ Hdec).
  - destruct Hst as (_ & _ & _ & _ & Hp & Hcmd & _ & Hun & Hit).
    rewrite Hun. split_and!; [lia| |done|done]. split; auto.
  - destruct Hst as (_ & _ & _ & _ & Hp & Hcmd & _ & Hun & Hit).
    rewrite Hun. split_and!; [lia| |done|done]. split; auto.
Qed.

Lemma dead_end_pass_witness :
  let s := state_after corridor 1 in
  let s' := state_after corridor 2 in
  iterationsRepeated s = 1 ∧ iterationsRepeated s' = 3 ∧
  unachievable s' = false ∧ backtracking s' = true ∧
  robotPath s = [2; 1] ∧ robotPath s' = [2; 2].
Proof.
  intros s s'.
  destruct (dead_end_pass corridor s s' [] [[3; 1; 6; 2]])
    as (_ & _ & _ & H); [vm_compute; reflexivity..|].
  destruct H as (H1 & _); [vm_compute; reflexivity|].
  split_and!; try exact H1; vm_compute; reflexivity.
Defined.

(** C2 as stated fails: the third experiment of the repository takes four
    forward steps, meets one dead end and is abandoned at once, the counter
    having been increased by every pass; on a grid of a single cell the run
    is abandoned with the counter at 1. *)
Lemma one_dead_end_is_enough :
  let cfg := experiment_config 3 in
  let s := state_after cfg 200 in
  run_navigation_loop cfg 200 = inr s ∧
  unachievable s = true ∧
  length (commands s) = 4%nat ∧
  dead_end_count cfg 200 (state_after cfg 0) = 1%nat ∧
  Z.of_nat (dead_end_count cfg 200 (state_after cfg 0))
    ≠ maxRepeatedIteration ∧
  unachievable (state_after single_cell 1) = true ∧
  iterationsRepeated (state_after single_cell 1) = 1.
Proof. intros cfg s. split_and!; vm_compute; (reflexivity || discriminate). Qed.

(** ** The map *)

(** C3 fails on the code: in the first experiment the start cell (2, 0) has
    three free neighbours in the first pass, and the unguarded crossroad
    mark replaces its code 1 by 4. *)
Theorem crossroad_overwrites_start :
  let cfg := experiment_config 1 in
  let s0 := state_after cfg 0 in
  let s1 := state_after cfg 1 in
  init_state cfg = inr s0 ∧ step cfg s0 = inr s1 ∧
  grid_get (final_map_state s0) (yinit cfg) (xinit cfg) = inr 1 ∧
  grid_get (final_map_state s1) (yinit cfg) (xinit cfg) = inr 4 ∧
  grid_get (final_map_state (state_after cfg 200)) (yinit cfg) (xinit cfg)
    = inr 4.
Proof. intros cfg s0 s1. split_and!; vm_compute; reflexivity. Qed.

(** ** The first experiment *)

(** C8: on the 4x4 grid with start (2, 0), target (0, 3) and the obstacle 11,
    the run finishes at the target, the path does not hold 11, the index of
    cell (2, 2), and there is one command less than there are path
    entries. *)
Theorem test_4x4_reaches_target :
  let cfg := experiment_config 1 in
  cfg = mkConfig 4 4 2 0 0 3 [11] ∧
  linear_index (xlength cfg) (2, 2) = 11 ∧
  ∃ s, run_navigation_loop cfg 200 = inr s ∧
       finish s = true ∧ unachievable s = false ∧
       cellX s = 0 ∧ cellY s = 3 ∧
       robotPath s = [3; 7; 6; 10; 14; 13] ∧
       inb 11 (robotPath s) = false ∧
       length (commands s) = (length (robotPath s) - 1)%nat.
Proof.
  intros cfg. split_and!; [reflexivity..|].
  exists (state_after cfg 200). split_and!; vm_compute; reflexivity.
Qed.

(** * Further properties *)

(** ** [direction_from_cells] *)

Lemma direction_from_cells_cases (a b : cell) :
  (∃ c, direction_from_cells a b = inr c ∧ distance a b = 1) ∨
  (direction_from_cells a b = inl ValueError ∧ distance a b ≠ 1).
Proof.
  destruct a as [cx cy], b as [nx ny].
  unfold direction_from_cells, distance. simpl.
  repeat match goal with
  | |- context [?x =? ?y] =>
      let E := fresh "E" in
      destruct (Z.eqb_spec x y) as [E|E]
  end; simpl;
  first [ left; eexists; split; [reflexivity|lia]
        | right; split; [reflexivity|lia] ].
Qed.

(** X1: [direction_from_cells] returns a command exactly for two cells at
    Manhattan distance 1 and raises [ValueError] for every other pair, the
    pair of a cell with itself included. *)
Theorem direction_from_cells_adjacent (a b : cell) :
  ((∃ c, direction_from_cells a b = inr c) ↔ distance a b = 1) ∧
  (direction_from_cells a b = inl ValueError ↔ distance a b ≠ 1) ∧
  direction_from_cells a a = inl ValueError.
Proof.
  split_and!.
  - destruct (direction_from_cells_cases a b) as [(c & Hc & Hd)|[Hc Hd]].
    + split; [done|]. intros _. by exists c.
    + split; [|done]. intros [c Hc']. congruence.
  - destruct (direction_from_cells_cases a b) as [(c & Hc & Hd)|[Hc Hd]].
    + split; [congruence|done].
    + done.
  - destruct (direction_from_cells_cases a a) as [(c & Hc & Hd)|[Hc Hd]];
      [|done].
    unfold distance in Hd. lia.
Qed.

Lemma move_by_direction (a b : cell) (c : Z) :
  direction_from_cells a b = inr c → move_by c a = b.
Proof.
  destruct a as [cx cy], b as [nx ny].
  unfold direction_from_cells, move_by. simpl.
  repeat match goal with
  | |- context [if ?b1 && ?b2 then _ else _] =>
      let E := fresh "E" in
      destruct (b1 && b2) eqn:E;
      [apply andb_true_iff in E as [?%Z.eqb_eq ?%Z.eqb_eq ]|]
  end; [..|discriminate]; intros [= <-]; simpl; by subst.
Qed.

(** X2: the command and the displacement determine each other: the cell
    reached from [a] by the command returned for [(a, b)] is [b], and the
    command returned for a cell and the cell a valid command leads to is
    that command. *)
Theorem direction_from_cells_move_by (a b : cell) (c : Z) :
  (direction_from_cells a b = inr c → move_by c a = b ∧ 0 <= c <= 3) ∧
  (0 <= c <= 3 → direction_from_cells a (move_by c a) = inr c).
Proof.
  destruct a as [cx cy], b as [nx ny]. split.
  - unfold direction_from_cells, move_by. simpl.
    repeat match goal with
    | |- context [if ?b1 && ?b2 then _ else _] =>
        let E := fresh "E" in
        destruct (b1 && b2) eqn:E;
        [apply andb_true_iff in E as [?%Z.eqb_eq ?%Z.eqb_eq ]|]
    end; [..|discriminate]; intros [= <-]; simpl; subst; split; done || lia.
  - intros Hc.
    assert (c = 0 ∨ c = 1 ∨ c = 2 ∨ c = 3) as [-> | [-> | [-> | ->]]] by lia;
      unfold direction_from_cells, move_by; simpl;
      repeat match goal with
      | |- context [?x =? ?y] =>
          let E := fresh "E" in
          destruct (Z.eqb_spec x y) as [E|E]; simpl; try lia
      end; reflexivity.
Qed.

Lemma direction_from_cells_move_by_witness :
  move_by 3 (2, 0) = (2, 1) ∧ direction_from_cells (2, 0) (2, 1) = inr 3.
Proof.
  destruct (direction_from_cells_move_by (2, 0) (2, 1) 3) as [H1 H2].
  split; [apply H1; reflexivity|apply H2; lia].
Defined.

(** X3: the command of the move back is 3 minus the command of the move:
    top and bottom are exchanged, left and right are exchanged. *)
Theorem direction_from_cells_opposite (a b : cell) (c : Z) :
  direction_from_cells a b = inr c ↔ direction_from_cells b a = inr (3 - c).
Proof.
  split; intros H.
  - by apply direction_reverse.
  - apply direction_reverse in H. by replace (3 - (3 - c)) with c in H by lia.
Qed.

(** ** [manhattan_nearest_cell_to_target] on its edges *)

(** X4: the result is empty only for the empty list, and every cell of the
    result is a cell of the input. *)
Theorem manhattan_nearest_empty (t : cell) (cells : list cell) :
  (manhattan_nearest_cell_to_target t cells = [] ↔ cells = []) ∧
  manhattan_nearest_cell_to_target t cells `sublist_of` cells.
Proof.
  split.
  - split; [|by intros ->].
    intros Hnil. destruct cells as [|c cells]; [done|].
    destruct (manhattan_nearest_last t (c :: cells)) as [x Hx]; [done|].
    by rewrite Hnil in Hx.
  - rewrite manhattan_nearest_min_cells. apply sublist_filter.
Qed.

(** X5: selecting the nearest cells twice selects nothing more than once. *)
Theorem manhattan_nearest_idempotent (t : cell) (cells : list cell) :
  manhattan_nearest_cell_to_target t
    (manhattan_nearest_cell_to_target t cells)
  = manhattan_nearest_cell_to_target t cells.
Proof.
  rewrite !manhattan_nearest_min_cells. unfold min_cells.
  set (P := λ c, Forall (λ d, distance t c <= distance t d) cells).
  apply list_filter_filter_r. intros c Hc.
  apply Forall_forall. intros d Hd%list_elem_of_filter.
  destruct Hd as [_ Hd]. unfold P in Hc. rewrite Forall_forall in Hc.
  by apply Hc.
Qed.

(** ** The neighbour scan, in full *)

Lemma neighbours_complete (cfg : Config) (x y : Z) (c : cell) :
  in_bounds cfg (x, y) → in_bounds cfg c → distance (x, y) c = 1 →
  c ∈ neighbours cfg x y.
Proof.
  intros [Hx0 Hy0] [Hx Hy] Hd.
  destruct c as [cx cy]. unfold distance in Hd. simpl in *.
  apply list_elem_of_omap.
  assert ((cx = x ∧ cy = y - 1) ∨ (cx = x - 1 ∧ cy = y) ∨
          (cx = x + 1 ∧ cy = y) ∨ (cx = x ∧ cy = y + 1))
    as [[-> ->] | [[-> ->] | [[-> ->] | [-> ->]]]] by lia.
  - exists 0. split; [in_app|]. unfold neighbour. simpl.
    destruct (Z.leb_spec 0 (y - 1)); [done|lia].
  - exists 1. split; [in_app|]. unfold neighbour. simpl.
    destruct (Z.leb_spec 0 (x - 1)); [done|lia].
  - exists 2. split; [in_app|]. unfold neighbour. simpl.
    destruct (Z.ltb_spec (x + 1) (xlength cfg)); [done|lia].
  - exists 3. split; [in_app|]. unfold neighbour. simpl.
    destruct (Z.ltb_spec (y + 1) (ylength cfg)); [done|lia].
Qed.

Lemma neighbours_adjacent (cfg : Config) (x y : Z) (c : cell) :
  in_bounds cfg (x, y) → c ∈ neighbours cfg x y →
  in_bounds cfg c ∧ distance (x, y) c = 1.
Proof.
  intros Hc Hin. apply neighbours_inv in Hin as [Hin [d Hd]]; [|done].
  split; [done|].
  destruct (direction_from_cells_cases (x, y) c) as [(? & _ & ?)|[? _]];
    [done|congruence].
Qed.

(** X6: the cells the scan looks at are the cells of the grid at Manhattan
    distance 1 from the current cell, each once: nothing outside the grid
    and no wrap-around at the border. *)
Theorem neighbours_in_grid (cfg : Config) (x y : Z) (c : cell) :
  in_bounds cfg (x, y) →
  (c ∈ neighbours cfg x y ↔ in_bounds cfg c ∧ distance (x, y) c = 1) ∧
  NoDup (neighbours cfg x y).
Proof.
  intros Hc. split; [split|].
  - by apply neighbours_adjacent.
  - intros [? ?]. by apply neighbours_complete.
  - eapply sublist_NoDup; [|apply neighbours_scan_order].
    repeat (apply NoDup_cons; split;
      [rewrite ?elem_of_cons, elem_of_nil; intros H;
       repeat (destruct H as [H|H]; [injection H; lia|]); done|]).
    apply NoDup_nil. done.
Qed.

Lemma neighbours_in_grid_witness :
  (0, 1) ∈ neighbours (experiment_config 1) 0 0 ∧
  NoDup (neighbours (experiment_config 1) 0 0).
Proof.
  destruct (neighbours_in_grid (experiment_config 1) 0 0 (0, 1)) as [H1 H2].
  - unfold in_bounds. simpl. lia.
  - split; [|exact H2]. apply H1. unfold in_bounds, distance. simpl. lia.
Defined.

Lemma scan_from_obstacles (cfg : Config) (s : NavState) (ds : list Z) :
  ∀ f o m f' o' m',
    scan_from cfg s ds (f, o, m) = inr (f', o', m') →
    o' = o ++ filter
               (λ c, inb (linear_index (xlength cfg) c) (obstacles cfg) = true)
               (omap (neighbour cfg (cellX s) (cellY s)) ds).
Proof.
  induction ds as [|d ds IH]; intros f o m f' o' m' H; simpl in H.
  - injection H as <- <- <-. simpl. by rewrite app_nil_r.
  - inv_bind H. destruct a as [[f1 o1] m1].
    apply IH in H. subst o'. simpl.
    unfold scan_direction in Hb.
    destruct (neighbour cfg (cellX s) (cellY s) d) as [[nx ny]|] eqn:Hn;
      simpl; [|by injection Hb as <- <- <-].
    assert (linear_index (xlength cfg) (nx, ny) = ny * xlength cfg + nx + 1)
      as Hidx by reflexivity.
    destruct (inb (ny * xlength cfg + nx + 1) (obstacles cfg)) eqn:Ho;
      simpl in *.
    { inv_bind Hb. injection Hb as <- <- <-.
      rewrite filter_cons_True by (by rewrite Hidx).
      by rewrite <- app_assoc. }
    rewrite filter_cons_False by (rewrite Hidx, Ho; discriminate).
    destruct (_ && _); [|by injection Hb as <- <- <-].
    do 2 inv_bind Hb. by injection Hb as <- <- <-.
Qed.

(** X7: the scan sorts the neighbours: [obstacleCells] holds the neighbours
    whose index is in [obstacles], in scan order, whether the run is
    backtracking or not; no cell is both free and an obstacle; and a
    neighbour in neither list is one already in [robotPath], or the run is
    backtracking. *)
Theorem scan_sorts_neighbours (cfg : Config) (s : NavState)
    (free obst : list cell) (m : grid) :
  scan cfg s = inr (free, obst, m) →
  obst = filter
           (λ c, inb (linear_index (xlength cfg) c) (obstacles cfg) = true)
           (neighbours cfg (cellX s) (cellY s)) ∧
  (∀ c, c ∈ free → c ∉ obst) ∧
  (∀ c, c ∈ neighbours cfg (cellX s) (cellY s) →
     c ∈ obst ∨ c ∈ free ∨
     inb (linear_index (xlength cfg) c) (robotPath s) = true ∨
     backtracking s = true).
Proof.
  intros Hscan.
  pose proof (scan_free cfg s free obst m Hscan) as Hfree.
  apply scan_from_obstacles in Hscan as Hobst. simpl in Hobst.
  fold (neighbours cfg (cellX s) (cellY s)) in Hobst.
  split_and!; [done| |].
  - intros c. rewrite Hfree, Hobst, !list_elem_of_filter.
    unfold is_free. intros [Hf _] [Ho _]. rewrite Ho in Hf. discriminate.
  - intros c Hc. rewrite Hfree, Hobst, !list_elem_of_filter.
    unfold is_free.
    destruct (inb _ (obstacles cfg)); [by left|].
    destruct (inb _ (robotPath s)); [by auto|].
    destruct (backtracking s); [by auto|]. right. left. done.
Qed.

Lemma scan_sorts_neighbours_witness :
  let s := state_after (experiment_config 1) 1 in
  scan (experiment_config 1) s
    = inr ([(1, 1); (3, 1)], [(2, 2)],
           [[0; 5; 4; 5]; [0; 5; 3; 5]; [0; 0; 6; 0]; [2; 0; 0; 0]]) ∧
  [(2, 2)] = filter (λ c, inb (linear_index 4 c) [11] = true)
                    (neighbours (experiment_config 1) 2 1).
Proof.
  intros s.
  assert (scan (experiment_config 1) s
    = inr ([(1, 1); (3, 1)], [(2, 2)],
           [[0; 5; 4; 5]; [0; 5; 3; 5]; [0; 0; 6; 0]; [2; 0; 0; 0]])) as H
    by (vm_compute; reflexivity).
  split; [exact H|].
  by destruct (scan_sorts_neighbours _ _ _ _ _ H) as [H1 _].
Defined.

(** ** The trace of a run *)

Lemma length_removelast_snoc {A : Type} (l : list A) (x : A) :
  l ≠ [] → length (removelast l ++ [x]) = length l.
Proof.
  destruct l as [|y l _] using rev_ind; [done|]. intros _.
  rewrite removelast_last, !length_app. simpl. lia.
Qed.

Lemma head_removelast_snoc {A : Type} (l : list A) (x : A) :
  (1 < length l)%nat → head (removelast l ++ [x]) = head l.
Proof.
  destruct l as [|y l _] using rev_ind; [simpl; lia|].
  rewrite removelast_last, length_app. simpl. intros Hlen.
  destruct l as [|z l]; [simpl in Hlen; lia|]. done.
Qed.

Lemma trace_invariant_reachable (cfg : Config) (s : NavState) :
  reachable cfg s → trace_invariant cfg s.
Proof.
  induction 1 as [s0 Hinit|s s' _ IH Hrun Hstep].
  { apply init_state_inv in Hinit
      as (Hx & Hy & Hp & Hb & Hit & Hf & Hu & Hc).
    constructor; rewrite ?Hx, ?Hy, ?Hp, ?Hb, ?Hit, ?Hf, ?Hu, ?Hc;
      simpl; try done; try lia.
    intros _. apply NoDup_singleton. }
  apply andb_true_iff in Hrun as Hfu. destruct Hfu as [Hf Hu].
  apply negb_true_iff in Hf, Hu.
  pose proof (tr_count _ _ IH). pose proof (tr_steps _ _ IH).
  pose proof (tr_cap _ _ IH Hu). pose proof (tr_length_le _ _ IH).
  apply step_sound in Hstep.
  destruct Hstep as [free ? ? next c Hscan Hne Hlast Hm Hp Hb Hit
                    |? ? last_id next c _ Hlt Hlen Hlast Hdec Hm Hp Hb Hit
                    |? ? _ _ Hst Hb|? ? _ Hlt' _ Hst Hb].
  - (* forward *)
    destruct Hm as (Hc & Hx & Hy & _ & _ & Hcmd & Hfin & Hun).
    destruct (last_nearest_is_free _ _ _ _ _ _ _ Hscan Hlast) as [_ Hfree].
    assert (backtracking s = false) as Hbs.
    { destruct (backtracking s) eqn:E; [|done].
      by apply (scan_backtracking cfg) in Hscan. }
    assert (linear_index (xlength cfg) next ∉ robotPath s) as Hfresh.
    { apply inb_false. unfold is_free in Hfree.
      apply andb_true_iff in Hfree as [_ Hfree].
      apply andb_true_iff in Hfree as [Hfree _].
      by apply negb_true_iff in Hfree. }
    constructor; rewrite ?Hp, ?Hcmd, ?Hb, ?Hbs, ?length_app; simpl;
      try done; try lia.
    + rewrite Hun. destruct (Z.leb_spec 200 (iterationsRepeated s')); [done|].
      intros _. lia.
    + intros _. apply NoDup_app. split_and!.
      * by apply IH.
      * intros x Hx1 Hx2%list_elem_of_singleton. by subst x.
      * apply NoDup_singleton.
    + intros _. rewrite (tr_length _ _ IH Hbs). lia.
    + pose proof (tr_head _ _ IH) as Hh.
      destruct (robotPath s); [done|]. done.
    + rewrite foldl_snoc, (tr_reckoning _ _ IH), Hx, Hy.
      apply move_by_direction in Hc as ->. by destruct next.
    + intros Hse _. rewrite Hfin, Hf.
      destruct (_ && _) eqn:E; [|done]. exfalso.
      apply andb_true_iff in E as [?%Z.eqb_eq ?%Z.eqb_eq ].
      apply Hfresh. replace next with (xinit cfg, yinit cfg).
      * apply head_Some_elem_of, IH.
      * rewrite Hse. destruct next. simpl in *. congruence.
  - (* backtracking *)
    destruct Hm as (Hc & Hx & Hy & _ & _ & Hcmd & Hfin & Hun).
    unfold maxRepeatedIteration in Hlt.
    assert (backtracking s = false) as Hbs.
    { destruct (backtracking s) eqn:E; [|done].
      pose proof (tr_back _ _ IH E Hrun). lia. }
    pose proof (tr_length _ _ IH Hbs) as Hlen'.
    assert (length (removelast (robotPath s) ++
                    [linear_index (xlength cfg) next])
            = length (robotPath s)) as Hlenp.
    { apply length_removelast_snoc. intros E. rewrite E in Hlen.
      simpl in Hlen. lia. }
    constructor; rewrite ?Hp, ?Hcmd, ?Hb, ?Hlenp, ?length_app; simpl;
      try done; try lia.
    + rewrite head_removelast_snoc by done. apply IH.
    + rewrite foldl_snoc, (tr_reckoning _ _ IH), Hx, Hy.
      apply move_by_direction in Hc as ->. by destruct next.
  - (* the repeated dead end stops the run *)
    destruct Hst as (Hx & Hy & _ & _ & Hp & Hcmd & Hfin & Hun & Hit).
    constructor; rewrite ?Hx, ?Hy, ?Hp, ?Hcmd, ?Hfin, ?Hb, ?Hit, ?Hun;
      try apply IH; try lia; try congruence.
    intros _. unfold running. rewrite Hun, andb_false_r. discriminate.
  - (* nothing to go back to *)
    destruct Hst as (Hx & Hy & _ & _ & Hp & Hcmd & Hfin & Hun & Hit).
    unfold maxRepeatedIteration in *.
    constructor; rewrite ?Hx, ?Hy, ?Hp, ?Hcmd, ?Hfin, ?Hb, ?Hit, ?Hun;
      try apply IH; try lia; try congruence.
    intros _. unfold running. rewrite Hun, andb_false_r. discriminate.
Qed.

(** X8: while the run has not backtracked, [robotPath] visits no cell
    twice and holds one entry more than commands were emitted; at any head
    of the loop it holds at most one entry more. *)
Theorem exploring_path_is_simple (cfg : Config) (s : NavState) :
  reachable cfg s →
  (length (robotPath s) <= S (length (commands s)))%nat ∧
  (backtracking s = false →
   NoDup (robotPath s) ∧ length (robotPath s) = S (length (commands s))).
Proof.
  intros Hinv%trace_invariant_reachable. split; [apply Hinv|].
  intros Hb. split; by apply Hinv.
Qed.

Lemma exploring_path_is_simple_witness :
  let s := state_after (experiment_config 2) 200 in
  robotPath s = [3; 9; 10; 16; 22; 28; 29; 35; 36] ∧
  NoDup (robotPath s) ∧ length (commands s) = 8%nat.
Proof.
  intros s.
  destruct (exploring_path_is_simple (experiment_config 2) s) as [_ H].
  - apply (state_after_reachable _ 200). vm_compute. reflexivity.
  - destruct H as [H1 H2]; [vm_compute; reflexivity|].
    split_and!; [vm_compute; reflexivity|exact H1|].
    vm_compute. reflexivity.
Defined.

(** X9: whatever the configuration, a run emits at most 200 commands and
    its path never holds more than 201 entries. *)
Theorem commands_bounded (cfg : Config) (s : NavState) :
  reachable cfg s →
  (length (commands s) <= 200)%nat ∧ (length (robotPath s) <= 201)%nat.
Proof.
  intros Hinv%trace_invariant_reachable.
  pose proof (tr_commands _ _ Hinv). pose proof (tr_length_le _ _ Hinv). lia.
Qed.

Lemma commands_bounded_witness :
  let s := state_after (mkConfig 300 1 0 0 299 0 []) 200 in
  length (commands s) = 200%nat ∧ unachievable s = true ∧
  (length (commands s) <= 200)%nat.
Proof.
  intros s.
  destruct (commands_bounded (mkConfig 300 1 0 0 299 0 []) s) as [H _].
  - apply (state_after_reachable _ 200). vm_compute. reflexivity.
  - split_and!; [vm_compute; reflexivity..|exact H].
Defined.

(** X10: a run backtracks over one cell at most: once [backtracking] is
    set no more than two commands have been emitted, and the next pass
    abandons the run without moving. *)
Theorem backtracks_once (cfg : Config) (s : NavState) :
  reachable cfg s → backtracking s = true →
  (length (commands s) <= 2)%nat ∧
  (running s = true → ∀ s', step cfg s = inr s' →
     unachievable s' = true ∧ robotPath s' = robotPath s ∧
     commands s' = commands s ∧ cellX s' = cellX s ∧ cellY s' = cellY s).
Proof.
  intros Hinv%trace_invariant_reachable Hb.
  split; [by apply Hinv|]. intros Hrun s' Hstep.
  pose proof (tr_back _ _ Hinv Hb Hrun) as Hit.
  apply step_sound in Hstep.
  destruct Hstep as [free ? ? ? ? Hscan Hne _ _ _ _ _
                    |? ? ? ? ? _ Hlt _ _ _ _ _ _ _
                    |? ? _ _ Hst _|? ? _ Hlt _ Hst _];
    unfold maxRepeatedIteration in *; try lia.
  - by apply (scan_backtracking cfg) in Hscan.
  - by destruct Hst as (-> & -> & _ & _ & -> & -> & _ & -> & _).
Qed.

Lemma backtracks_once_witness :
  let s := state_after corridor 2 in
  let s' := state_after corridor 3 in
  length (commands s) = 2%nat ∧ backtracking s = true ∧
  unachievable s' = true ∧ robotPath s' = robotPath s.
Proof.
  intros s s'.
  destruct (backtracks_once corridor s) as [_ H].
  - apply (state_after_reachable _ 2). vm_compute. reflexivity.
  - vm_compute. reflexivity.
  - destruct (H eq_refl s') as (H1 & H2 & _); [vm_compute; reflexivity|].
    split_and!; [vm_compute; reflexivity..|exact H1|exact H2].
Defined.

(** X11: a dead end met after two or more moves abandons the run at once:
    the pass sets [unachievable] and neither backtracks nor moves. *)
Theorem late_dead_end_stops (cfg : Config) (s s' : NavState)
    (obst : list cell) (m : grid) :
  reachable cfg s → running s = true →
  scan cfg s = inr ([], obst, m) →
  (2 <= length (commands s))%nat →
  step cfg s = inr s' →
  unachievable s' = true ∧ backtracking s' = backtracking s ∧
  robotPath s' = robotPath s ∧ commands s' = commands s.
Proof.
  intros Hinv%trace_invariant_reachable Hrun Hscan Hlen Hstep.
  pose proof (tr_steps _ _ Hinv) as Hit.
  apply step_sound in Hstep.
  destruct Hstep as [free ? ? ? ? Hs Hne _ _ _ _ _
                    |? ? ? ? ? _ Hlt _ _ _ _ _ _ _
                    |? ? _ _ Hst Hb|? ? _ Hlt _ Hst _];
    unfold maxRepeatedIteration in *; try lia.
  - rewrite Hscan in Hs. by injection Hs as <- _ _.
  - by destruct Hst as (_ & _ & _ & _ & -> & -> & _ & -> & _).
Qed.

Lemma late_dead_end_stops_witness :
  let cfg := experiment_config 3 in
  let s := state_after cfg 4 in
  let s' := state_after cfg 5 in
  length (commands s) = 4%nat ∧ unachievable s' = true ∧
  backtracking s' = false ∧ robotPath s' = [3; 4; 10; 16; 22].
Proof.
  intros cfg s s'.
  destruct (late_dead_end_stops cfg s s' [(2, 3); (4, 3); (3, 4)]
    (final_map_state s')) as (H1 & H2 & H3 & _).
  - apply (state_after_reachable _ 4). vm_compute. reflexivity.
  - vm_compute. reflexivity.
  - vm_compute. reflexivity.
  - vm_compute. lia.
  - vm_compute. reflexivity.
  - split_and!; [vm_compute; reflexivity|exact H1|..].
    + rewrite H2. vm_compute. reflexivity.
    + rewrite H3. vm_compute. reflexivity.
Defined.

(** X12: the commands say where the robot is: applying the emitted
    commands, in order, to the start cell gives the current cell, through
    forward and backtracking moves alike. *)
Theorem commands_lead_to_current_cell (cfg : Config) (s : NavState) :
  reachable cfg s →
  foldl (λ c command, move_by command c) (xinit cfg, yinit cfg) (commands s)
    = (cellX s, cellY s).
Proof. intros Hinv%trace_invariant_reachable. apply Hinv. Qed.

Lemma commands_lead_to_current_cell_witness :
  let s := state_after corridor 2 in
  commands s = [1; 2] ∧ (cellX s, cellY s) = (1, 0) ∧
  foldl (λ c command, move_by command c) (1, 0) (commands s)
    = (cellX s, cellY s).
Proof.
  intros s. split_and!; [vm_compute; reflexivity..|].
  apply (commands_lead_to_current_cell corridor s).
  apply (state_after_reachable _ 2). vm_compute. reflexivity.
Defined.

(** X13: the loop does not test the target before it moves: a run whose
    start cell is the target leaves it, and finishes only by backtracking
    onto it, after exactly two commands. *)
Theorem start_on_target (cfg : Config) (s : NavState) :
  (xinit cfg, yinit cfg) = (xend cfg, yend cfg) →
  reachable cfg s → finish s = true →
  backtracking s = true ∧ length (commands s) = 2%nat.
Proof.
  intros Hse Hinv%trace_invariant_reachable Hf.
  assert (backtracking s = true) as Hb.
  { destruct (backtracking s) eqn:Hb; [done|].
    pose proof (tr_target _ _ Hinv Hse Hb). congruence. }
  split; [done|]. by apply Hinv.
Qed.

Lemma start_on_target_witness :
  let s := state_after two_cells 200 in
  finish s = true ∧ commands s = [2; 1] ∧ backtracking s = true ∧
  unachievable (state_after single_cell 200) = true.
Proof.
  intros s.
  destruct (start_on_target two_cells s) as [H _].
  - reflexivity.
  - apply (state_after_reachable _ 200). vm_compute. reflexivity.
  - vm_compute. reflexivity.
  - split_and!; [vm_compute; reflexivity..|exact H|vm_compute; reflexivity].
Defined.

(** ** Reading the map *)

Section Codes.

Variable cfg : Config.

Lemma linear_index_inj (c c' : cell) :
  in_bounds cfg c → in_bounds cfg c' →
  linear_index (xlength cfg) c = linear_index (xlength cfg) c' → c = c'.
Proof.
  intros Hc Hc' Heq.
  apply cell_of_index_in_bounds in Hc, Hc'. rewrite Heq in Hc. congruence.
Qed.

Lemma linear_index_range (c : cell) :
  in_bounds cfg c →
  1 <= linear_index (xlength cfg) c <= xlength cfg * ylength cfg.
Proof.
  destruct c as [x y]. intros [Hx Hy]. unfold linear_index. simpl in *. nia.
Qed.

Lemma code_grid_set (m m' : grid) (c : cell) (v : Z) :
  grid_shape cfg m → in_bounds cfg c →
  grid_set m c.2 c.1 v = inr m' →
  ∀ c', in_bounds cfg c' →
    code m' c' = if decide (c' = c) then inr v else code m c'.
Proof.
  intros Hm Hc Hset c' Hc'.
  pose proof (grid_set_shape cfg m m' _ _ _ Hm Hset) as Hm'.
  destruct c as [x y], c' as [x' y']. simpl in *.
  destruct (grid_row cfg m x y Hm Hc) as (row & Hr & Hrow & Hcol & Hlt).
  destruct (grid_row cfg m x' y' Hm Hc') as (row1 & Hr1 & Hrow1 & Hcol1 & Hlt1).
  destruct (grid_row cfg m' x' y' Hm' Hc')
    as (row2 & Hr2 & Hrow2 & Hcol2 & Hlt2).
  unfold grid_set in Hset. rewrite Hr in Hset. simpl in Hset.
  rewrite Hrow, Hcol in Hset. simpl in Hset. injection Hset as <-.
  unfold code, grid_get. simpl.
  rewrite Hr1, Hr2. simpl. rewrite Hrow1, Hrow2, Hcol1, Hcol2. simpl.
  rewrite list_lookup_insert in Hrow2.
  destruct Hc as [Hx Hy], Hc' as [Hx' Hy']. simpl in *.
  destruct (decide (Z.to_nat y = Z.to_nat y' ∧ _)) as [[Hyy _]|Hne].
  - injection Hrow2 as <-. assert (y' = y) as -> by lia.
    rewrite Hrow in Hrow1. injection Hrow1 as <-.
    rewrite list_lookup_insert.
    destruct (decide (Z.to_nat x = Z.to_nat x' ∧ _)) as [[Hxx _]|Hne].
    + assert (x' = x) as -> by lia. by rewrite decide_True.
    + rewrite decide_False; [done|]. intros [= -> ]. apply Hne. split; lia.
  - rewrite Hrow1 in Hrow2. injection Hrow2 as <-.
    rewrite decide_False; [done|]. intros [= -> ->]. apply Hne. split; [done|].
    apply lookup_lt_is_Some. by rewrite Hrow.
Qed.

Lemma code_in_bounds (m : grid) (c : cell) :
  grid_shape cfg m → in_bounds cfg c → ∃ v, code m c = inr v.
Proof.
  intros Hm Hc. destruct c as [x y]. by apply (grid_get_in_bounds cfg).
Qed.

Lemma code_mark_step (m m' : grid) (c : cell) :
  grid_shape cfg m → in_bounds cfg c →
  mark_step m c.2 c.1 = inr m' →
  ∃ v0, code m c = inr v0 ∧
    ∀ c', in_bounds cfg c' →
      code m' c' =
        if decide (c' = c)
        then inr (if (v0 =? 1) || (v0 =? 2) then v0 else 3)
        else code m c'.
Proof.
  intros Hm Hc Hmark. unfold mark_step in Hmark.
  bind_inv Hmark as v0 Hv0. exists v0. split; [done|]. intros c' Hc'.
  destruct ((v0 =? 1) || (v0 =? 2)).
  - injection Hmark as <-. destruct (decide (c' = c)) as [->|]; done.
  - by apply (code_grid_set m m' c 3).
Qed.

Lemma scanned_trans (m1 m2 m3 : grid) (c : cell) :
  scanned cfg m1 m2 c → scanned cfg m2 m3 c → scanned cfg m1 m3 c.
Proof.
  unfold scanned.
  intros [H1|[[H1 Ho1]|(H1 & H0 & Ho1)]] [H2|[[H2 Ho2]|(H2 & H0' & Ho2)]];
    try (rewrite H1 in *); try (rewrite H2 in *); try congruence; auto.
Qed.

Lemma scanned_direction (s : NavState) (d : Z) (f o f' o' : list cell)
    (m m' : grid) :
  grid_shape cfg m → in_bounds cfg (cellX s, cellY s) →
  scan_direction cfg s (f, o, m) d = inr (f', o', m') →
  ∀ c, in_bounds cfg c → scanned cfg m m' c.
Proof.
  intros Hm Hcur Hscan c Hc. unfold scan_direction in Hscan.
  unfold scanned.
  destruct (neighbour _ _ _ _) as [[nx ny]|] eqn:Hn;
    [|injection Hscan as _ _ <-; by left].
  apply neighbour_inv in Hn as [Hn _]; [|done].
  assert (linear_index (xlength cfg) (nx, ny) = ny * xlength cfg + nx + 1)
    as Hidx by reflexivity.
  destruct (inb (ny * xlength cfg + nx + 1) (obstacles cfg)) eqn:Ho.
  { bind_inv Hscan as m1 H1. injection Hscan as _ _ <-.
    rewrite (code_grid_set m m1 (nx, ny) 6 Hm Hn H1 c Hc).
    destruct (decide (c = (nx, ny))) as [->|]; [|by left].
    right. left. by rewrite Hidx. }
  destruct (_ && _); [|injection Hscan as _ _ <-; by left].
  bind_inv Hscan as v Hv. bind_inv Hscan as m1 H1.
  injection Hscan as _ _ <-.
  destruct (Z.eqb_spec v 0) as [->|]; [|injection H1 as <-; by left].
  rewrite (code_grid_set m m1 (nx, ny) 5 Hm Hn H1 c Hc).
  destruct (decide (c = (nx, ny))) as [->|]; [|by left].
  right. right. by rewrite Hidx.
Qed.

Lemma scanned_from (s : NavState) (ds : list Z) :
  in_bounds cfg (cellX s, cellY s) →
  ∀ f o m f' o' m',
    grid_shape cfg m →
    scan_from cfg s ds (f, o, m) = inr (f', o', m') →
    ∀ c, in_bounds cfg c → scanned cfg m m' c.
Proof.
  intros Hcur. induction ds as [|d ds IH];
    intros f o m f' o' m' Hm H c Hc; simpl in H.
  - injection H as _ _ <-. by left.
  - bind_inv H as acc Hacc. destruct acc as [[f1 o1] m1].
    eapply scanned_trans.
    + by eapply scanned_direction.
    + eapply IH; [|exact H|done]. by eapply scan_direction_shape.
Qed.

(** The writes of a pass that moves, after the scan. *)
Lemma step_map (s s' : NavState) :
  step cfg s = inr s' →
  ∃ free obst m1,
    scan cfg s = inr (free, obst, m1) ∧
    ((commands s' = commands s ∧ final_map_state s' = m1) ∨
     (∃ m2 m3 command,
        commands s' = commands s ++ [command] ∧
        (match free with
         | [] => ret m1
         | _ :: _ => mark_step m1 (cellY s) (cellX s)
         end) = inr m2 ∧
        (if 1 <? Z.of_nat (length free)
         then grid_set m2 (cellY s) (cellX s) 4 else ret m2) = inr m3 ∧
        (if (cellX s' =? xend cfg) && (cellY s' =? yend cfg)
         then grid_set m3 (cellY s') (cellX s') 2
         else mark_step m3 (cellY s') (cellX s'))
          = inr (final_map_state s'))).
Proof.
  unfold step. intros H. bind_inv H as acc Hscan.
  destruct acc as [[free obst] m1]. exists free, obst, m1. split; [done|].
  bind_inv H as d Hd.
  assert (∀ s1 next m2,
    cellX s1 = cellX s → cellY s1 = cellY s → final_map_state s1 = m2 →
    commands s1 = commands s →
    commit cfg s1 free next = inr s' →
    ∃ m3 command,
      commands s' = commands s ++ [command] ∧
      (if 1 <? Z.of_nat (length free)
       then grid_set m2 (cellY s) (cellX s) 4 else ret m2) = inr m3 ∧
      (if (cellX s' =? xend cfg) && (cellY s' =? yend cfg)
       then grid_set m3 (cellY s') (cellX s') 2
       else mark_step m3 (cellY s') (cellX s'))
        = inr (final_map_state s')) as Hcommit.
  { intros s1 [cx cy] m2 Hx Hy Hmap Hcmd Hc. unfold commit in Hc.
    bind_inv Hc as command Hcommand. bind_inv Hc as m3 H3.
    bind_inv Hc as m4 H4.
    injection Hc as <-. simpl. rewrite Hx, Hy, Hmap in H3.
    exists m3, command. by rewrite Hcmd. }
  destruct free as [|c0 free].
  - unfold dead_end in Hd.
    destruct (maxRepeatedIteration <=? _).
    { injection Hd as <-. injection H as <-. by left. }
    destruct (1 <? Z.of_nat (length (robotPath s))).
    + destruct (last _); [|discriminate]. inv_bind Hd. injection Hd as <-.
      right. exists m1.
      apply Hcommit with (m2 := m1) in H as (m3 & command & ? & ? & ?);
        [|reflexivity..].
      by exists m3, command.
    + injection Hd as <-. injection H as <-. by left.
  - unfold forward in Hd. destruct (last _); [|discriminate].
    bind_inv Hd as m2 Hm2. injection Hd as <-. right. exists m2.
    apply Hcommit with (m2 := m2) in H as (m3 & command & ? & ? & ?);
      [|reflexivity..].
    by exists m3, command.
Qed.

End Codes.

(** The codes after the writes of a pass that moves from [cur] to [next]:
    [m1] is the map after the scan, [m4] the map at the end of the pass. *)
Lemma move_code (cfg : Config) (free : list cell) (cur next : cell)
    (reached : bool) (m1 m2 m3 m4 : grid) :
  grid_shape cfg m1 → in_bounds cfg cur → in_bounds cfg next →
  (match free with
   | [] => ret m1
   | _ :: _ => mark_step m1 cur.2 cur.1
   end) = inr m2 →
  (if 1 <? Z.of_nat (length free)
   then grid_set m2 cur.2 cur.1 4 else ret m2) = inr m3 →
  (if reached then grid_set m3 next.2 next.1 2
   else mark_step m3 next.2 next.1) = inr m4 →
  ∀ c, in_bounds cfg c →
    ∃ v1, code m4 c = inr v1 ∧
      (c = next → 1 <= v1 <= 3 ∧ (reached = true → v1 = 2)) ∧
      (c ≠ next → c = cur →
         code m1 c = inr v1 ∨
         (1 <= v1 <= 4 ∧ (v1 = 2 → code m1 c = inr 2))) ∧
      (c ≠ next → c ≠ cur → code m1 c = inr v1).
Proof.
  intros Hm1 Hcur Hnext H2 H3 H4 c Hc.
  (* the current cell *)
  assert (grid_shape cfg m2 ∧
          ∀ c', in_bounds cfg c' →
            (c' ≠ cur → code m2 c' = code m1 c') ∧
            (c' = cur → ∃ v, code m2 c' = inr v ∧
               (code m1 c' = inr v ∨
                (1 <= v <= 3 ∧ (v = 2 → code m1 c' = inr 2)))))
    as [Hm2 Hc2].
  { destruct free as [|c0 free].
    - injection H2 as <-. split; [done|]. intros c' Hc'. split; [done|].
      intros ->. destruct (code_in_bounds cfg m1 cur Hm1 Hcur) as [v Hv].
      exists v. auto.
    - split; [by eapply mark_step_shape|]. intros c' Hc'.
      destruct (code_mark_step cfg m1 m2 cur Hm1 Hcur H2) as (v0 & Hv0 & Hall).
      rewrite (Hall c' Hc'). split.
      + intros Hne. by rewrite decide_False.
      + intros ->. rewrite decide_True by done. eexists. split; [done|].
        destruct (Z.eqb_spec v0 1) as [->|]; simpl; [by left|].
        destruct (Z.eqb_spec v0 2) as [->|]; simpl; [by left|].
        right. split; [lia|]. intros; lia. }
  assert (grid_shape cfg m3 ∧
          ∀ c', in_bounds cfg c' →
            (c' ≠ cur → code m3 c' = code m1 c') ∧
            (c' = cur → ∃ v, code m3 c' = inr v ∧
               (code m1 c' = inr v ∨
                (1 <= v <= 4 ∧ (v = 2 → code m1 c' = inr 2)))))
    as [Hm3 Hc3].
  { destruct (1 <? _).
    - split; [by eapply grid_set_shape|]. intros c' Hc'.
      rewrite (code_grid_set cfg m2 m3 cur 4 Hm2 Hcur H3 c' Hc'). split.
      + intros Hne. rewrite decide_False by done. by apply Hc2.
      + intros ->. rewrite decide_True by done. exists 4. split; [done|].
        right. split; [lia|]. intros; lia.
    - injection H3 as <-. split; [done|]. intros c' Hc'.
      destruct (Hc2 c' Hc') as [Hne Heq]. split; [done|].
      intros Hcc. destruct (Heq Hcc) as (v & Hv & [?|[? ?]]); exists v;
        (split; [done|]); [by left|]. right. split; [lia|done]. }
  (* the cell arrived at *)
  assert (∀ c', in_bounds cfg c' →
            (c' ≠ next → code m4 c' = code m3 c') ∧
            (c' = next → ∃ v, code m4 c' = inr v ∧ 1 <= v <= 3 ∧
                              (reached = true → v = 2))) as Hc4.
  { intros c' Hc'. destruct reached.
    - rewrite (code_grid_set cfg m3 m4 next 2 Hm3 Hnext H4 c' Hc'). split.
      + intros Hne. by rewrite decide_False.
      + intros ->. rewrite decide_True by done. exists 2. by split; [|lia].
    - destruct (code_mark_step cfg m3 m4 next Hm3 Hnext H4)
        as (v0 & Hv0 & Hall).
      rewrite (Hall c' Hc'). split.
      + intros Hne. by rewrite decide_False.
      + intros ->. rewrite decide_True by done. eexists. split; [done|].
        split; [|done].
        destruct (Z.eqb_spec v0 1) as [->|]; simpl; [lia|].
        destruct (Z.eqb_spec v0 2) as [->|]; simpl; lia. }
  destruct (Hc4 c Hc) as [Hne4 Heq4]. destruct (Hc3 c Hc) as [Hne3 Heq3].
  destruct (decide (c = next)) as [->|Hcn].
  - destruct (Heq4 eq_refl) as (v & Hv & Hr & Hreached).
    exists v. split_and!; done.
  - rewrite (Hne4 Hcn). destruct (decide (c = cur)) as [->|Hcc].
    + destruct (Heq3 eq_refl) as (v & Hv & Hcase).
      exists v. split_and!; done.
    + rewrite (Hne3 Hcc).
      destruct (code_in_bounds cfg m1 c Hm1 Hc) as [v Hv].
      exists v. split_and!; done.
Qed.

(** ** The map and the path *)

(** A pass either stops the run where it is, or moves: forward onto a cell
    that is no obstacle and not in the path, or back onto the entry below
    the top of the path. *)
Lemma step_trace (cfg : Config) (s s' : NavState) :
  step cfg s = inr s' →
  (commands s' = commands s ∧ robotPath s' = robotPath s ∧
   cellX s' = cellX s ∧ cellY s' = cellY s ∧ unachievable s' = true) ∨
  (∃ command,
     commands s' = commands s ++ [command] ∧
     finish s' =
       (if (cellX s' =? xend cfg) && (cellY s' =? yend cfg) then true
        else finish s) ∧
     ((robotPath s' =
         robotPath s ++ [linear_index (xlength cfg) (cellX s', cellY s')] ∧
       inb (linear_index (xlength cfg) (cellX s', cellY s')) (obstacles cfg)
         = false) ∨
      (robotPath s' =
         removelast (robotPath s) ++
         [linear_index (xlength cfg) (cellX s', cellY s')] ∧
       linear_index (xlength cfg) (cellX s', cellY s') ∈ robotPath s))).
Proof.
  intros Hstep. apply step_sound in Hstep.
  assert (∀ next c, moved cfg s s' next c →
    next = (cellX s', cellY s') ∧ commands s' = commands s ++ [c] ∧
    finish s' =
      (if (cellX s' =? xend cfg) && (cellY s' =? yend cfg) then true
       else finish s)) as Hmoved.
  { intros [nx ny] c (_ & Hx & Hy & _ & _ & Hcmd & Hfin & _). simpl in *.
    by rewrite Hx, Hy. }
  destruct Hstep as [? ? ? next c Hs _ Hlast Hm Hp _ _
                    |? ? last_id next c _ _ _ Hlast Hdec Hm Hp _ _
                    |? ? _ _ Hst _|? ? _ _ _ Hst _].
  - destruct (Hmoved _ _ Hm) as (Hn & Hcmd & Hfin). right. exists c.
    split_and!; [done..|]. left. rewrite <- Hn. split; [done|].
    destruct (last_nearest_is_free _ _ _ _ _ _ _ Hs Hlast) as [_ Hfr].
    unfold is_free in Hfr. apply andb_true_iff in Hfr as [Hfr _].
    by apply negb_true_iff in Hfr.
  - destruct (Hmoved _ _ Hm) as (Hn & Hcmd & Hfin). right. exists c.
    split_and!; [done..|]. right. rewrite <- Hn. split; [done|].
    rewrite (linear_index_cell_of_index _ _ _ Hdec).
    by apply last_removelast_elem in Hlast.
  - left. by destruct Hst as (-> & -> & _ & _ & -> & -> & _ & -> & _).
  - left. by destruct Hst as (-> & -> & _ & _ & -> & -> & _ & -> & _).
Qed.

Lemma snoc_ne {A : Type} (l : list A) (x : A) : l ++ [x] ≠ l.
Proof.
  intros E. apply (f_equal length) in E. rewrite length_app in E.
  simpl in E. lia.
Qed.

Section MapInvariant.

Variable cfg : Config.
Hypothesis Hvalid : valid_config cfg.

Lemma code_np_zeros (m : grid) (c : cell) :
  np_zeros (ylength cfg) (xlength cfg) = inr m → in_bounds cfg c →
  code m c = inr 0.
Proof.
  intros Hz Hc. pose proof (np_zeros_shape cfg m Hz) as Hm.
  destruct c as [x y].
  destruct (grid_row cfg m x y Hm Hc) as (row & Hr & Hrow & Hcol & Hlt).
  unfold code, grid_get. simpl. rewrite Hr. simpl. rewrite Hrow, Hcol. simpl.
  unfold np_zeros in Hz. destruct (_ || _); [discriminate|].
  injection Hz as <-.
  apply lookup_replicate in Hrow as [-> _].
  destruct (replicate _ 0 !! Z.to_nat x) as [v|] eqn:Hv.
  - by apply lookup_replicate in Hv as [-> _].
  - apply lookup_ge_None in Hv. rewrite length_replicate in *. lia.
Qed.

Lemma map_invariant_init (s0 : NavState) :
  init_state cfg = inr s0 → map_invariant cfg s0.
Proof.
  intros Hinit. destruct Hvalid as (Hw & Hh & Hstart & Hend).
  unfold init_state in Hinit.
  bind_inv Hinit as m0 H0. bind_inv Hinit as m1 H1.
  bind_inv Hinit as m2 H2. injection Hinit as <-. simpl in *.
  pose proof (np_zeros_shape cfg m0 H0) as Hm0.
  pose proof (grid_set_shape cfg _ _ _ _ _ Hm0 H1) as Hm1.
  constructor; simpl.
  - intros c Hc. unfold cell_ok. simpl.
    rewrite (code_grid_set cfg m1 m2 (xend cfg, yend cfg) 2 Hm1 Hend H2 c Hc).
    rewrite (code_grid_set cfg m0 m1 (xinit cfg, yinit cfg) 1 Hm0 Hstart H1
               c Hc).
    rewrite (code_np_zeros m0 c H0 Hc).
    destruct (decide (c = (xend cfg, yend cfg))) as [->|Hne].
    { exists 2. split_and!; try done; lia. }
    destruct (decide (c = (xinit cfg, yinit cfg))) as [->|Hns].
    { exists 1. split_and!; try done; lia. }
    exists 0. split_and!; try done; try lia.
    intros _ Hin. exfalso. apply Hns.
    rewrite orb_false_r in Hin. apply Z.eqb_eq in Hin.
    by apply (linear_index_inj cfg).
  - repeat constructor. by exists (xinit cfg, yinit cfg).
  - intros Hs. by repeat constructor.
  - intros Hne _. done.
Qed.

Lemma scanned_ok (s : NavState) (m m1 : grid) (c : cell) :
  (inb (linear_index (xlength cfg) (xinit cfg, yinit cfg)) (obstacles cfg)
     = false →
   Forall (λ p, inb p (obstacles cfg) = false) (robotPath s)) →
  cell_ok cfg s m c → scanned cfg m m1 c → cell_ok cfg s m1 c.
Proof.
  intros Hfree (v & Hv & Hr & H6 & Hvis & Hend) Hscan.
  destruct Hscan as [H|[[H Ho]|(H & H0 & Ho)]].
  - exists v. rewrite H. split_and!; (done || lia).
  - exists 6. split_and!; try done; try lia.
    + intros Hs Hin. specialize (Hfree Hs). rewrite Forall_forall in Hfree.
      apply inb_true in Hin. apply Hfree in Hin. congruence.
    + intros _ He ->. congruence.
  - rewrite Hv in H0. injection H0 as ->.
    exists 5. split_and!; try done; try lia.
    + intros Hs Hin. specialize (Hvis Hs Hin). lia.
    + intros Hne He Hc. specialize (Hend Hne He Hc). lia.
Qed.

Lemma path_after_move (s s' : NavState) (next : cell) (c : cell) :
  robotPath s' = robotPath s ++ [linear_index (xlength cfg) next] ∨
  robotPath s' =
    removelast (robotPath s) ++ [linear_index (xlength cfg) next] →
  in_bounds cfg next → in_bounds cfg c → c ≠ next →
  inb (linear_index (xlength cfg) c) (robotPath s') = true →
  inb (linear_index (xlength cfg) c) (robotPath s) = true.
Proof.
  intros Hp Hn Hc Hne Hin. apply inb_true in Hin. apply inb_true.
  assert (linear_index (xlength cfg) c ≠ linear_index (xlength cfg) next)
    as Hidx by (intros E; by apply Hne, (linear_index_inj cfg)).
  destruct Hp as [Hp|Hp]; rewrite Hp in Hin;
    apply elem_of_app in Hin as [Hin|Hin%list_elem_of_singleton]; try done.
  destruct (robotPath s) as [|y l _] using rev_ind; [done|].
  rewrite removelast_last in Hin. in_app.
Qed.

Lemma map_invariant_step (s s' : NavState) :
  invariant cfg s → map_invariant cfg s → running s = true →
  step cfg s = inr s' → map_invariant cfg s'.
Proof.
  intros Hinv Hmi Hrun Hstep.
  pose proof (invariant_step cfg s s' Hinv Hrun Hstep) as Hinv'.
  pose proof (step_map cfg s s' Hstep) as (free & obst & m1 & Hscan & Hmap).
  pose proof (step_trace cfg s s' Hstep) as Htrace.
  pose proof (inv_cell _ _ Hinv) as Hcur.
  pose proof (inv_cell _ _ Hinv') as Hnext.
  pose proof (scan_from_shape cfg s _ _ _ _ _ _ _ (inv_shape _ _ Hinv) Hscan)
    as Hm1.
  assert (∀ c, in_bounds cfg c → cell_ok cfg s m1 c) as Hok1.
  { intros c Hc. eapply scanned_ok; [apply Hmi|by apply Hmi|].
    eapply (scanned_from cfg s); [done|apply Hinv|exact Hscan|done]. }
  pose proof (inv_last _ _ Hinv) as Hlast.
  apply last_Some_elem_of in Hlast.
  destruct Htrace as [(Hcmd & Hp & Hx & Hy & Hun)
                     |(command & Hcmd & Hfin & Hp)].
  - (* the pass stops the run *)
    destruct Hmap as [[_ Hmap]|(? & ? & ? & Hcmd' & _)];
      [|rewrite Hcmd in Hcmd'; symmetry in Hcmd'; by apply snoc_ne in Hcmd'].
    constructor; rewrite ?Hp; try apply Hmi.
    + intros c Hc. specialize (Hok1 c Hc). unfold cell_ok in *.
      by rewrite Hp, Hmap.
    + intros _ Hrun'. unfold running in Hrun'.
      rewrite Hun, andb_false_r in Hrun'. discriminate.
  - (* the pass moves *)
    destruct Hmap as [[Hcmd' _]|(m2 & m3 & ? & _ & H2 & H3 & H4)];
      [rewrite Hcmd' in Hcmd; symmetry in Hcmd; by apply snoc_ne in Hcmd|].
    assert (Forall (λ p, ∃ c, in_bounds cfg c ∧
                              p = linear_index (xlength cfg) c)
                   (robotPath s')) as Hcells'.
    { destruct Hp as [[-> _]|[-> Hin]]; apply Forall_app; split;
        try apply Forall_removelast; try apply Hmi;
        repeat constructor; eauto. }
    assert (inb (linear_index (xlength cfg) (xinit cfg, yinit cfg))
              (obstacles cfg) = false →
            Forall (λ p, inb p (obstacles cfg) = false) (robotPath s'))
      as Hfree'.
    { intros Hs0. pose proof (mi_path_free _ _ Hmi Hs0) as Hpf.
      destruct Hp as [[-> Ho]|[-> Hin]]; apply Forall_app; split;
        try apply Forall_removelast; try done; repeat constructor; try done.
      rewrite Forall_forall in Hpf. by apply Hpf. }
    constructor; try done.
    + intros c Hc. specialize (Hok1 c Hc).
      destruct (move_code cfg free (cellX s, cellY s) (cellX s', cellY s')
                  _ m1 m2 m3 _ Hm1 Hcur Hnext H2 H3 H4 c Hc)
        as (v1 & Hv1 & Hn & Hc' & Hother).
      destruct Hok1 as (v & Hv & Hr & H6 & Hvis & Hend).
      exists v1. split; [done|].
      destruct (decide (c = (cellX s', cellY s'))) as [->|Hcn].
      { destruct (Hn eq_refl) as [Hr1 Hreached].
        split_and!; try lia; try (intros; lia).
        intros _ _ [= E1 E2]. apply Hreached.
        by rewrite E1, E2, !Z.eqb_refl. }
      assert (inb (linear_index (xlength cfg) (xinit cfg, yinit cfg))
                (obstacles cfg) = false →
              inb (linear_index (xlength cfg) c) (robotPath s') = true →
              1 <= v <= 4) as Hvis'.
      { intros Hs0 Hin. apply Hvis; [done|].
        eapply path_after_move; [|exact Hnext|done..].
        destruct Hp as [[-> _]|[-> _]]; auto. }
      destruct (decide (c = (cellX s, cellY s))) as [->|Hcc].
      { destruct (Hc' Hcn eq_refl) as [E|[Hr1 H2']].
        - rewrite Hv in E. injection E as <-. split_and!; (done || lia).
        - split_and!; try lia; try (intros; lia).
          intros Hne He Hce. exfalso.
          by apply (mi_away _ _ Hmi Hne Hrun). }
      specialize (Hother Hcn Hcc). rewrite Hv in Hother.
      injection Hother as <-. split_and!; (done || lia).
    + intros Hne Hrun' [= E1 E2].
      rewrite E1, E2, !Z.eqb_refl in Hfin. simpl in Hfin.
      unfold running in Hrun'. rewrite Hfin in Hrun'. discriminate.
Qed.

Lemma map_invariant_reachable (s : NavState) :
  reachable cfg s → map_invariant cfg s.
Proof.
  induction 1 as [s0 Hinit|s s' Hreach IH Hrun Hstep].
  - by apply map_invariant_init.
  - eapply map_invariant_step; [|done..].
    by apply invariant_reachable.
Qed.

(** A code 6 survives a pass, when the start cell is no obstacle. *)
Lemma obstacle_code_step (s s' : NavState) (c : cell) :
  inb (linear_index (xlength cfg) (xinit cfg, yinit cfg)) (obstacles cfg)
    = false →
  reachable cfg s → running s = true → step cfg s = inr s' →
  in_bounds cfg c →
  code (final_map_state s) c = inr 6 →
  code (final_map_state s') c = inr 6.
Proof.
  intros Hs0 Hreach Hrun Hstep Hc H6.
  pose proof (invariant_reachable cfg Hvalid s Hreach) as Hinv.
  pose proof (map_invariant_reachable s Hreach) as Hmi.
  pose proof (invariant_step cfg s s' Hinv Hrun Hstep) as Hinv'.
  pose proof (map_invariant_step s s' Hinv Hmi Hrun Hstep) as Hmi'.
  pose proof (step_map cfg s s' Hstep) as (free & obst & m1 & Hscan & Hmap).
  pose proof (inv_cell _ _ Hinv) as Hcur.
  pose proof (inv_cell _ _ Hinv') as Hnext.
  pose proof (scan_from_shape cfg s _ _ _ _ _ _ _ (inv_shape _ _ Hinv) Hscan)
    as Hm1.
  assert (inb (linear_index (xlength cfg) c) (obstacles cfg) = true) as Ho.
  { destruct (mi_cells _ _ Hmi c Hc) as (v & Hv & _ & Hobst & _).
    rewrite H6 in Hv. injection Hv as <-. by apply Hobst. }
  assert (code m1 c = inr 6) as H61.
  { destruct (scanned_from cfg s _ Hcur _ _ _ _ _ _ (inv_shape _ _ Hinv)
                Hscan c Hc) as [H|[[H _]|(_ & H & _)]]; congruence. }
  assert (∀ s1, invariant cfg s1 → map_invariant cfg s1 →
                c ≠ (cellX s1, cellY s1)) as Hoff.
  { intros s1 Hi Hm ->.
    pose proof (inv_last _ _ Hi) as Hl. apply last_Some_elem_of in Hl.
    pose proof (mi_path_free _ _ Hm Hs0) as Hpf.
    rewrite Forall_forall in Hpf. apply Hpf in Hl. congruence. }
  destruct Hmap as [[_ ->]|(m2 & m3 & ? & _ & H2 & H3 & H4)]; [done|].
  destruct (move_code cfg free (cellX s, cellY s) (cellX s', cellY s')
              _ m1 m2 m3 _ Hm1 Hcur Hnext H2 H3 H4 c Hc)
    as (v1 & Hv1 & _ & _ & Hother).
  rewrite Hv1, <- H61. symmetry. apply Hother; by apply Hoff.
Qed.

End MapInvariant.

Lemma iterate_steps (cfg : Config) (n : nat) :
  ∀ s s', iterate cfg n s = inr s' → steps cfg s s'.
Proof.
  assert (∀ s s1 s2, running s = true → step cfg s = inr s1 →
            steps cfg s1 s2 → steps cfg s s2) as Hcons.
  { intros s s1 s2 Hrun Hstep Hsteps.
    induction Hsteps as [|s1 s2 s3 _ IH Hrun' Hstep'].
    - eapply steps_step; [apply steps_refl|done..].
    - eapply steps_step; [by apply IH|done..]. }
  induction n as [|n IH]; intros s s' H; simpl in H.
  - injection H as <-. apply steps_refl.
  - destruct (running s) eqn:Hrun; [|injection H as <-; apply steps_refl].
    bind_inv H as s1 Hstep. eapply Hcons; [done..|]. by apply IH.
Qed.

Lemma steps_reachable (cfg : Config) (s s' : NavState) :
  reachable cfg s → steps cfg s s' → reachable cfg s'.
Proof.
  intros Hreach. induction 1 as [|s s1 s2 _ IH Hrun Hstep]; [done|].
  eapply reach_step; [by apply IH|done..].
Qed.

(** X14: while the run has not backtracked its path fits the grid: it
    holds at most [xlength * ylength] entries, each the index of a cell of
    the grid, so fewer commands than the grid has cells were emitted. *)
Theorem exploring_path_fits_grid (cfg : Config) (s : NavState) :
  valid_config cfg → reachable cfg s → backtracking s = false →
  Forall (λ p, 1 <= p <= xlength cfg * ylength cfg) (robotPath s) ∧
  Z.of_nat (length (robotPath s)) <= xlength cfg * ylength cfg ∧
  Z.of_nat (length (commands s)) < xlength cfg * ylength cfg.
Proof.
  intros Hvalid Hreach Hb.
  pose proof (map_invariant_reachable cfg Hvalid s Hreach) as Hmi.
  pose proof (trace_invariant_reachable cfg s Hreach) as Htr.
  assert (Forall (λ p, 1 <= p <= xlength cfg * ylength cfg) (robotPath s))
    as Hrange.
  { eapply Forall_impl; [apply Hmi|]. simpl. intros p (c & Hc & ->).
    by apply linear_index_range. }
  assert (Z.of_nat (length (robotPath s)) <= xlength cfg * ylength cfg)
    as Hlen.
  { assert (robotPath s ⊆+ seqZ 1 (xlength cfg * ylength cfg)) as Hsub.
    { apply NoDup_submseteq; [by apply Htr|]. intros p Hp.
      rewrite Forall_forall in Hrange. apply elem_of_seqZ.
      specialize (Hrange p Hp). lia. }
    apply submseteq_length in Hsub. rewrite length_seqZ in Hsub.
    destruct Hvalid as (? & ? & _). nia. }
  split_and!; [done..|]. rewrite (tr_length _ _ Htr Hb) in Hlen. lia.
Qed.

Lemma exploring_path_fits_grid_witness :
  let s := state_after (experiment_config 1) 200 in
  length (robotPath s) = 6%nat ∧
  Z.of_nat (length (robotPath s)) <= 4 * 4.
Proof.
  intros s. split; [vm_compute; reflexivity|].
  destruct (exploring_path_fits_grid (experiment_config 1) s)
    as (_ & H & _); [| |vm_compute; reflexivity|exact H].
  - unfold valid_config, in_bounds. simpl. lia.
  - apply (state_after_reachable _ 200). vm_compute. reflexivity.
Defined.

(** X15: on a valid configuration whose start cell is no obstacle, the
    code 6 marks obstacles only and is permanent: a cell that holds 6 has
    its index in [obstacles], and holds 6 at every later head of the
    loop. *)
Theorem obstacle_marks_are_permanent (cfg : Config) (s s' : NavState)
    (c : cell) :
  valid_config cfg →
  inb (linear_index (xlength cfg) (xinit cfg, yinit cfg)) (obstacles cfg)
    = false →
  reachable cfg s → steps cfg s s' → in_bounds cfg c →
  code (final_map_state s) c = inr 6 →
  inb (linear_index (xlength cfg) c) (obstacles cfg) = true ∧
  code (final_map_state s') c = inr 6.
Proof.
  intros Hvalid Hs0 Hreach Hsteps Hc H6. split.
  - pose proof (map_invariant_reachable cfg Hvalid s Hreach) as Hmi.
    destruct (mi_cells _ _ Hmi c Hc) as (v & Hv & _ & Hobst & _).
    rewrite H6 in Hv. injection Hv as <-. by apply Hobst.
  - induction Hsteps as [|s s1 s2 Hsteps IH Hrun Hstep]; [done|].
    eapply (obstacle_code_step cfg Hvalid s1 s2); try done.
    + by eapply steps_reachable.
    + by apply IH.
Qed.

Lemma obstacle_marks_are_permanent_witness :
  let cfg := experiment_config 1 in
  code (final_map_state (state_after cfg 2)) (2, 2) = inr 6 ∧
  code (final_map_state (state_after cfg 200)) (2, 2) = inr 6.
Proof.
  intros cfg.
  assert (code (final_map_state (state_after cfg 2)) (2, 2) = inr 6) as H
    by (vm_compute; reflexivity).
  split; [exact H|].
  apply (obstacle_marks_are_permanent cfg (state_after cfg 2)
           (state_after cfg 200) (2, 2)); try exact H.
  - unfold valid_config, in_bounds. simpl. lia.
  - vm_compute. reflexivity.
  - apply (state_after_reachable _ 2). vm_compute. reflexivity.
  - apply (iterate_steps cfg 198). vm_compute. reflexivity.
  - unfold in_bounds. simpl. lia.
Defined.

(** X16: on a valid configuration whose start cell is no obstacle, no
    cell of the path is left unvisited on the map: every entry of
    [robotPath] is the index of a cell of the grid whose code is 1 (start),
    2 (end), 3 (path step) or 4 (crossroad). *)
Theorem path_cells_are_marked (cfg : Config) (s : NavState) :
  valid_config cfg →
  inb (linear_index (xlength cfg) (xinit cfg, yinit cfg)) (obstacles cfg)
    = false →
  reachable cfg s →
  Forall (λ p, ∃ c v, in_bounds cfg c ∧ p = linear_index (xlength cfg) c ∧
                      code (final_map_state s) c = inr v ∧ 1 <= v <= 4)
         (robotPath s).
Proof.
  intros Hvalid Hs0 Hreach.
  pose proof (map_invariant_reachable cfg Hvalid s Hreach) as Hmi.
  apply Forall_forall. intros p Hp.
  pose proof (mi_path_cells _ _ Hmi) as Hcells.
  rewrite Forall_forall in Hcells. destruct (Hcells p Hp) as (c & Hc & ->).
  destruct (mi_cells _ _ Hmi c Hc) as (v & Hv & _ & _ & Hvis & _).
  exists c, v. split_and!; try done; apply Hvis; try done; by apply inb_true.
Qed.

Lemma path_cells_are_marked_witness :
  let cfg := experiment_config 2 in
  let s := state_after cfg 200 in
  Forall (λ p, ∃ c v, in_bounds cfg c ∧ p = linear_index (xlength cfg) c ∧
                      code (final_map_state s) c = inr v ∧ 1 <= v <= 4)
         (robotPath s).
Proof.
  intros cfg s. apply (path_cells_are_marked cfg s).
  - unfold valid_config, in_bounds. simpl. lia.
  - vm_compute. reflexivity.
  - apply (state_after_reachable _ 200). vm_compute. reflexivity.
Defined.

(** X17: on a valid configuration whose target is neither the start cell
    nor an obstacle, the target cell holds the code 2 at every head of the
    loop. *)
Theorem end_cell_keeps_its_code (cfg : Config) (s : NavState) :
  valid_config cfg →
  (xinit cfg, yinit cfg) ≠ (xend cfg, yend cfg) →
  inb (linear_index (xlength cfg) (xend cfg, yend cfg)) (obstacles cfg)
    = false →
  reachable cfg s →
  code (final_map_state s) (xend cfg, yend cfg) = inr 2.
Proof.
  intros Hvalid Hne He Hreach.
  pose proof (map_invariant_reachable cfg Hvalid s Hreach) as Hmi.
  destruct (mi_cells _ _ Hmi (xend cfg, yend cfg)) as (v & Hv & _ & _ & _ & H).
  { apply Hvalid. }
  by rewrite Hv, (H Hne He eq_refl).
Qed.

Lemma end_cell_keeps_its_code_witness :
  let cfg := experiment_config 3 in
  code (final_map_state (state_after cfg 200)) (5, 5) = inr 2.
Proof.
  intros cfg. apply (end_cell_keeps_its_code cfg (state_after cfg 200)).
  - unfold valid_config, in_bounds. simpl. lia.
  - discriminate.
  - vm_compute. reflexivity.
  - apply (state_after_reachable _ 200). vm_compute. reflexivity.
Defined.

(** X18: on a valid configuration the map keeps its shape of [ylength]
    rows of [xlength] entries, and every cell of the grid holds one of the
    codes 0..6. *)
Theorem map_holds_codes (cfg : Config) (s : NavState) :
  valid_config cfg → reachable cfg s →
  grid_shape cfg (final_map_state s) ∧
  ∀ c, in_bounds cfg c →
    ∃ v, code (final_map_state s) c = inr v ∧ 0 <= v <= 6.
Proof.
  intros Hvalid Hreach.
  split; [by apply invariant_reachable|]. intros c Hc.
  pose proof (map_invariant_reachable cfg Hvalid s Hreach) as Hmi.
  destruct (mi_cells _ _ Hmi c Hc) as (v & Hv & Hr & _). eauto.
Qed.

Lemma map_holds_codes_witness :
  let cfg := experiment_config 2 in
  grid_shape cfg (final_map_state (state_after cfg 200)) ∧
  ∃ v, code (final_map_state (state_after cfg 200)) (3, 2) = inr v ∧
       0 <= v <= 6.
Proof.
  intros cfg.
  destruct (map_holds_codes cfg (state_after cfg 200)) as [H1 H2].
  - unfold valid_config, in_bounds. simpl. lia.
  - apply (state_after_reachable _ 200). vm_compute. reflexivity.
  - split; [exact H1|]. apply H2. unfold in_bounds. simpl. lia.
Defined.

(** ** The spike schedule *)

Lemma commands_in_range (cfg : Config) (s : NavState) :
  reachable cfg s → Forall (λ c, 0 <= c <= 3) (commands s).
Proof.
  induction 1 as [s0 Hinit|s s' _ IH _ Hstep].
  - apply init_state_inv in Hinit as (_ & _ & _ & _ & _ & _ & _ & ->).
    constructor.
  - apply step_sound in Hstep.
    assert (∀ next c, moved cfg s s' next c →
              Forall (λ c, 0 <= c <= 3) (commands s')) as Hmoved.
    { intros next c (Hc & _ & _ & _ & _ & -> & _).
      apply Forall_app. split; [done|].
      apply Forall_cons. split; [by apply direction_range in Hc|constructor]. }
    destruct Hstep as [? ? ? ? ? _ _ _ Hm _ _ _
                      |? ? ? ? ? _ _ _ _ _ Hm _ _ _
                      |? ? _ _ Hst _|? ? _ _ _ Hst _]; eauto.
    + by destruct Hst as (_ & _ & _ & _ & _ & -> & _).
    + by destruct Hst as (_ & _ & _ & _ & _ & -> & _).
Qed.

Lemma Qplus_inject_Z (a b : Z) :
  (inject_Z a + inject_Z b)%Q = inject_Z (a + b).
Proof.
  unfold Qplus, inject_Z. simpl. by rewrite !Z.mul_1_r.
Qed.

Lemma py_max_eps (a : Z) : 1 <= a → py_max (inject_Z a) eps = inject_Z a.
Proof.
  intros Ha. unfold py_max, eps, Qle_bool, inject_Z. simpl.
  destruct (Z.leb_spec (1 * 1) (a * 1000)); [done|lia].
Qed.

Lemma safe_times_positive (times : list Q) :
  Forall (λ t, (0 < t)%Q) times → safe_times times = times.
Proof.
  unfold safe_times. induction 1 as [|t times Ht _ IH]; [done|].
  rewrite fmap_cons, IH. f_equal.
  destruct (Qle_bool t 0) eqn:E; [|done].
  apply Qle_bool_iff in E. exfalso. by apply (Qlt_not_le 0 t).
Qed.

Lemma encode_commands_snoc (st : SpikeState) (cmds : list Z) (c : Z) :
  encode_commands st (cmds ++ [c]) =
    let* st' := encode_commands st cmds in encode_command st' c.
Proof.
  revert st. induction cmds as [|c0 cmds IH]; intros st; simpl.
  - by destruct (encode_command st c).
  - destruct (encode_command st c0) as [e|st1]; simpl; [done|apply IH].
Qed.

Lemma passes_of_snoc (c' c : Z) (cmds : list Z) :
  passes_of c' (cmds ++ [c]) =
    passes_of c' cmds ++ (if decide (c' = c) then [length cmds] else []).
Proof.
  unfold passes_of. rewrite length_app. simpl.
  rewrite Nat.add_1_r, seq_S, filter_app. simpl. f_equal.
  - apply filter_agree, Forall_forall. intros k Hk%elem_of_seq.
    by rewrite lookup_app_l by lia.
  - rewrite filter_cons, filter_nil, list_lookup_middle by done.
    destruct (decide (Some c = Some c')) as [[= ->]|Hne].
    + by rewrite decide_True.
    + rewrite decide_False; [done|]. intros ->. done.
Qed.

Lemma encode_commands_spec (cmds : list Z) :
  Forall (λ c, 0 <= c <= 3) cmds →
  ∃ st, encode_commands spikes_init cmds = inr st ∧
    current_time st = inject_Z (1 + 50 * Z.of_nat (length cmds)) ∧
    search_spike_times st =
      (λ k : nat, inject_Z (50 * Z.of_nat k + 2)) <$> seq 0 (length cmds) ∧
    match_spike_times st = (λ c, train c cmds) <$> [0; 1; 2; 3].
Proof.
  induction cmds as [|c cmds IH] using rev_ind; intros Hall.
  { exists spikes_init. by split_and!. }
  apply Forall_app in Hall as [Hall Hc]. apply Forall_cons in Hc as [Hc _].
  destruct (IH Hall) as (st & Hst & Htime & Hsearch & Hmatch).
  rewrite encode_commands_snoc, Hst. simpl.
  assert (py_max (current_time st + (1 # 1)) eps
          = inject_Z (50 * Z.of_nat (length cmds) + 2)) as Hs.
  { change (1 # 1)%Q with (inject_Z 1).
    rewrite Htime, Qplus_inject_Z, py_max_eps by lia. f_equal. lia. }
  assert (py_max (current_time st + (10 # 1)) eps
          = inject_Z (50 * Z.of_nat (length cmds) + 11)) as Hm.
  { change (10 # 1)%Q with (inject_Z 10).
    rewrite Htime, Qplus_inject_Z, py_max_eps by lia. f_equal. lia. }
  assert ((current_time st + chunk_ms)%Q
          = inject_Z (1 + 50 * Z.of_nat (length (cmds ++ [c])))) as Ht.
  { change chunk_ms with (inject_Z 50).
    rewrite Htime, Qplus_inject_Z, length_app. simpl. f_equal. lia. }
  assert (search_spike_times st ++
            [inject_Z (50 * Z.of_nat (length cmds) + 2)]
          = (λ k : nat, inject_Z (50 * Z.of_nat k + 2))
              <$> seq 0 (length (cmds ++ [c]))) as Hs'.
  { rewrite length_app. simpl.
    by rewrite Nat.add_1_r, seq_S, fmap_app, Hsearch. }
  unfold encode_command. rewrite Hm, Hs, Ht, Hs', Hmatch.
  unfold train. simpl length.
  rewrite np_index_in_range by (simpl; lia). simpl bind.
  assert (c = 0 ∨ c = 1 ∨ c = 2 ∨ c = 3) as [-> | [-> | [-> | ->]]] by lia;
    simpl; eexists; (split_and!; [reflexivity..|]);
    rewrite !passes_of_snoc; simpl; by rewrite !fmap_app, ?app_nil_r.
Qed.

Lemma train_sorted (c : Z) (cmds : list Z) :
  StronglySorted Qlt (train c cmds) ∧ Forall (λ t, (0 < t)%Q) (train c cmds).
Proof.
  unfold train, passes_of. generalize (length cmds). intros n.
  induction n as [|n [IH1 IH2]]; [split; constructor|].
  rewrite seq_S, filter_app, fmap_app. simpl. split.
  - apply StronglySorted_app_2; [|done|].
    + intros x1 x2 (k1 & -> & Hk1)%list_elem_of_fmap Hx2.
      apply list_elem_of_filter in Hk1 as [_ Hk1%elem_of_seq].
      rewrite filter_cons, filter_nil in Hx2.
      destruct (decide _); simpl in Hx2; [|by apply elem_of_nil in Hx2].
      apply list_elem_of_singleton in Hx2 as ->.
      rewrite <- Zlt_Qlt. lia.
    + rewrite filter_cons, filter_nil.
      destruct (decide _); simpl; repeat constructor.
  - apply Forall_app. split; [done|].
    rewrite filter_cons, filter_nil.
    destruct (decide _); simpl; repeat constructor.
    change 0%Q with (inject_Z 0). rewrite <- Zlt_Qlt. lia.
Qed.

(** X19: every pass that emits a command schedules, without raising, one
    search spike 2 ms and one match spike 11 ms after the start of its 50 ms
    slot, the match spike on the neuron of the command and on no other:
    after [n] commands [current_time] is [1 + 50 n], the search train
    holds [50 k + 2] for the passes [k < n], and the train of neuron [c]
    holds [50 k + 11] for the passes [k] whose command is [c], in order. *)
Theorem spike_schedule_of_a_run (cfg : Config) (s : NavState) :
  reachable cfg s →
  ∃ st, encode_commands spikes_init (commands s) = inr st ∧
    current_time st = inject_Z (1 + 50 * Z.of_nat (length (commands s))) ∧
    search_spike_times st =
      (λ k : nat, inject_Z (50 * Z.of_nat k + 2))
        <$> seq 0 (length (commands s)) ∧
    match_spike_times st = (λ c, train c (commands s)) <$> [0; 1; 2; 3].
Proof. intros Hreach. by apply encode_commands_spec, (commands_in_range cfg). Qed.

Lemma spike_schedule_of_a_run_witness :
  let s := state_after (experiment_config 1) 200 in
  commands s = [3; 1; 3; 3; 1] ∧
  ∃ st, encode_commands spikes_init (commands s) = inr st ∧
    search_spike_times st = [2 # 1; 52 # 1; 102 # 1; 152 # 1; 202 # 1]%Q ∧
    match_spike_times st
      = [[]; [61 # 1; 211 # 1]; []; [11 # 1; 111 # 1; 161 # 1]]%Q.
Proof.
  intros s. split; [vm_compute; reflexivity|].
  destruct (spike_schedule_of_a_run (experiment_config 1) s)
    as (st & Hst & _ & Hsearch & Hmatch).
  - apply (state_after_reachable _ 200). vm_compute. reflexivity.
  - exists st. split_and!; [exact Hst|..].
    + rewrite Hsearch. vm_compute. reflexivity.
    + rewrite Hmatch. vm_compute. reflexivity.
Defined.

Lemma search_train_sorted (n : nat) :
  let times := (λ k : nat, inject_Z (50 * Z.of_nat k + 2)) <$> seq 0 n in
  StronglySorted Qlt times ∧ Forall (λ t, (0 < t)%Q) times.
Proof.
  simpl. induction n as [|n [IH1 IH2]]; [split; constructor|].
  rewrite seq_S, fmap_app. simpl. split.
  - apply StronglySorted_app_2; [|done|repeat constructor].
    intros x1 x2 (k1 & -> & Hk1%elem_of_seq)%list_elem_of_fmap
      ->%list_elem_of_singleton.
    rewrite <- Zlt_Qlt. lia.
  - apply Forall_app. split; [done|]. repeat constructor.
    change 0%Q with (inject_Z 0). rewrite <- Zlt_Qlt. lia.
Qed.

(** X20: the spike times of a run need no repair: all are positive, so
    the lists handed to the two populations are the lists as scheduled,
    and each train is strictly increasing. *)
Theorem spike_times_are_safe (cfg : Config) (s : NavState) (st : SpikeState) :
  reachable cfg s →
  encode_commands spikes_init (commands s) = inr st →
  safe_search_times st = search_spike_times st ∧
  safe_match_times st = match_spike_times st ∧
  StronglySorted Qlt (search_spike_times st) ∧
  Forall (StronglySorted Qlt) (match_spike_times st).
Proof.
  intros Hreach Hst.
  destruct (encode_commands_spec (commands s))
    as (st' & Hst' & _ & Hsearch & Hmatch); [by apply (commands_in_range cfg)|].
  rewrite Hst in Hst'. injection Hst' as <-.
  unfold safe_search_times, safe_match_times. rewrite Hsearch, Hmatch.
  destruct (search_train_sorted (length (commands s))) as [Hs1 Hs2].
  split_and!.
  - by apply safe_times_positive.
  - simpl. repeat f_equal; apply safe_times_positive, train_sorted.
  - done.
  - simpl. repeat constructor; apply train_sorted.
Qed.

Lemma spike_times_are_safe_witness :
  let st := mkSpikeState (101 # 1) [2 # 1; 52 # 1]%Q
              [[]; [11 # 1]; [61 # 1]; []]%Q in
  encode_commands spikes_init (commands (state_after corridor 2)) = inr st ∧
  safe_search_times st = [2 # 1; 52 # 1]%Q ∧
  safe_match_times st = [[]; [11 # 1]; [61 # 1]; []]%Q.
Proof.
  intros st.
  assert (encode_commands spikes_init (commands (state_after corridor 2))
          = inr st) as Hst by (vm_compute; reflexivity).
  destruct (spike_times_are_safe corridor (state_after corridor 2) st)
    as (H1 & H2 & _); [|exact Hst|].
  - apply (state_after_reachable _ 2). vm_compute. reflexivity.
  - split_and!; [exact Hst|exact H1|exact H2].
Defined.

(** X21: the commands can be read back from the match trains: neuron [c]
    has a spike at [50 k + 11] exactly when the command of pass [k] was
    [c]. *)
Theorem commands_read_back (cfg : Config) (s : NavState) (st : SpikeState)
    (k : nat) (c : Z) :
  reachable cfg s →
  encode_commands spikes_init (commands s) = inr st →
  0 <= c <= 3 →
  ∃ times, match_spike_times st !! Z.to_nat c = Some times ∧
    (inject_Z (50 * Z.of_nat k + 11) ∈ times ↔ commands s !! k = Some c).
Proof.
  intros Hreach Hst Hc.
  destruct (encode_commands_spec (commands s))
    as (st' & Hst' & _ & _ & Hmatch); [by apply (commands_in_range cfg)|].
  rewrite Hst in Hst'. injection Hst' as <-.
  exists (train c (commands s)). split.
  - rewrite Hmatch.
    assert (c = 0 ∨ c = 1 ∨ c = 2 ∨ c = 3) as [-> | [-> | [-> | ->]]] by lia;
      reflexivity.
  - unfold train, passes_of. rewrite list_elem_of_fmap. split.
    + intros (k' & Heq & Hk'). apply list_elem_of_filter in Hk' as [Hk' _].
      injection Heq as Heq. by replace k with k' by lia.
    + intros Hk. exists k. split; [done|]. apply list_elem_of_filter.
      split; [done|]. apply elem_of_seq. apply lookup_lt_Some in Hk. lia.
Qed.

Lemma commands_read_back_witness :
  let st := mkSpikeState (101 # 1) [2 # 1; 52 # 1]%Q
              [[]; [11 # 1]; [61 # 1]; []]%Q in
  commands (state_after corridor 2) !! 1%nat = Some 2 ∧
  (61 # 1)%Q ∈ [61 # 1]%Q.
Proof.
  intros st.
  destruct (commands_read_back corridor (state_after corridor 2) st 1 2)
    as (times & Ht & Hiff).
  - apply (state_after_reachable _ 2). vm_compute. reflexivity.
  - vm_compute. reflexivity.
  - lia.
  - injection Ht as <-. split; [vm_compute; reflexivity|].
    apply Hiff. vm_compute. reflexivity.
Defined.

(** ** A grid without obstacles *)

Section FreeGrid.

Variable cfg : Config.
Hypothesis Hvalid : valid_config cfg.
Hypothesis Hfree : obstacles cfg = [].
Hypothesis Hne : (xinit cfg, yinit cfg) ≠ (xend cfg, yend cfg).
Hypothesis Hcap :
  distance (xend cfg, yend cfg) (xinit cfg, yinit cfg) < 200.

Lemma distance_zero (t c : cell) : distance t c = 0 ↔ c = t.
Proof.
  destruct t as [tx ty], c as [x y]. unfold distance. simpl. split.
  - intros H. f_equal; lia.
  - intros [= -> ->]. lia.
Qed.

(** A cell of the grid other than the target has a neighbour in the grid
    that is nearer to the target. *)
Lemma nearer_neighbour (x y : Z) :
  in_bounds cfg (x, y) → (x, y) ≠ (xend cfg, yend cfg) →
  ∃ c, c ∈ neighbours cfg x y ∧ in_bounds cfg c ∧
       distance (xend cfg, yend cfg) c
         = distance (xend cfg, yend cfg) (x, y) - 1.
Proof.
  intros Hc Hnt. destruct Hvalid as (_ & _ & _ & [Htx Hty]).
  destruct Hc as [Hx Hy]. simpl in *.
  assert (∃ c, in_bounds cfg c ∧ distance (x, y) c = 1 ∧
               distance (xend cfg, yend cfg) c
                 = distance (xend cfg, yend cfg) (x, y) - 1)
    as (c & Hc & Hd & Hnear).
  { unfold in_bounds, distance. simpl.
    destruct (Z.lt_trichotomy x (xend cfg)) as [?|[->|?]].
    - exists (x + 1, y). simpl. lia.
    - destruct (Z.lt_trichotomy y (yend cfg)) as [?|[->|?]].
      + exists (xend cfg, y + 1). simpl. lia.
      + done.
      + exists (xend cfg, y - 1). simpl. lia.
    - exists (x - 1, y). simpl. lia. }
  exists c. split_and!; [|done..]. by apply neighbours_complete.
Qed.

Lemma greedy_init (s0 : NavState) :
  init_state cfg = inr s0 → greedy_invariant cfg s0.
Proof.
  intros Hinit. destruct Hvalid as (_ & _ & Hstart & _).
  apply init_state_inv in Hinit
    as (Hx & Hy & Hp & Hb & Hit & Hf & Hu & Hc).
  constructor; rewrite ?Hx, ?Hy, ?Hp, ?Hb, ?Hit, ?Hf, ?Hu, ?Hc;
    simpl; try done; try lia.
  repeat constructor. exists (xinit cfg, yinit cfg). by split_and!.
Qed.

Lemma greedy_step (s : NavState) :
  invariant cfg s → greedy_invariant cfg s → running s = true →
  ∃ s', step cfg s = inr s' ∧ greedy_invariant cfg s' ∧
        distance (xend cfg, yend cfg) (cellX s', cellY s')
          = distance (xend cfg, yend cfg) (cellX s, cellY s) - 1.
Proof.
  intros Hinv Hgr Hrun.
  destruct (step_ok cfg s Hinv Hrun) as [s' Hstep].
  exists s'. split; [done|].
  pose proof (invariant_step cfg s s' Hinv Hrun Hstep) as Hinv'.
  apply andb_true_iff in Hrun as [Hf _]. apply negb_true_iff in Hf.
  pose proof (inv_cell _ _ Hinv) as Hcur.
  assert ((cellX s, cellY s) ≠ (xend cfg, yend cfg)) as Hnt.
  { intros E. apply (gr_finish _ _ Hgr) in E. congruence. }
  destruct (nearer_neighbour _ _ Hcur Hnt) as (c & Hcn & Hc & Hnear).
  assert (is_free cfg s c = true) as Hcfree.
  { unfold is_free. rewrite Hfree, (gr_exploring _ _ Hgr). simpl.
    rewrite andb_true_r. apply negb_true_iff, inb_false. intros Hin.
    pose proof (gr_behind _ _ Hgr) as Hbehind.
    rewrite Forall_forall in Hbehind.
    destruct (Hbehind _ Hin) as (c' & Hc' & Heq & Hd).
    apply (linear_index_inj cfg) in Heq; [|done..]. subst c'. lia. }
  apply step_sound in Hstep.
  destruct Hstep as [free ? ? next cmd Hscan _ Hlast Hm Hp Hb Hit
                    |? ? ? ? ? Hscan _ _ _ _ _ _ _ _
                    |? ? Hscan _ _ _|? ? Hscan _ _ _ _].
  2-4: apply scan_free in Hscan; symmetry in Hscan; exfalso;
       by apply (filter_nil_not_elem_of _ _ c Hscan Hcfree).
  pose proof (scan_free cfg s _ _ _ Hscan) as Hfr.
  destruct (last_nearest_is_free _ _ _ _ _ _ _ Hscan Hlast) as [Hnn _].
  apply neighbours_adjacent in Hnn as [Hnb Hadj]; [|done].
  assert (distance (xend cfg, yend cfg) next
          <= distance (xend cfg, yend cfg) c) as Hmin.
  { rewrite manhattan_nearest_min_cells in Hlast.
    apply last_Some_elem_of in Hlast. unfold min_cells in Hlast.
    apply list_elem_of_filter in Hlast as [Hlast _].
    rewrite Forall_forall in Hlast. apply Hlast.
    rewrite Hfr. by apply list_elem_of_filter. }
  destruct Hm as (_ & Hx & Hy & _ & _ & Hcmd & Hfin & Hun).
  assert (next = (cellX s', cellY s')) as Hnext
    by (rewrite Hx, Hy; by destruct next).
  rewrite Hnext in *.
  assert (distance (xend cfg, yend cfg) (cellX s', cellY s')
          = distance (xend cfg, yend cfg) (cellX s, cellY s) - 1) as Hd.
  { revert Hadj Hmin Hnear. unfold distance. simpl. lia. }
  split; [|done].
  pose proof (gr_count _ _ Hgr). pose proof (gr_distance _ _ Hgr).
  pose proof (distance_nonneg (xend cfg, yend cfg) (cellX s', cellY s')).
  constructor; rewrite ?Hb, ?Hcmd, ?Hp, ?length_app; simpl.
  - apply Hgr.
  - lia.
  - lia.
  - apply Forall_app. split.
    + eapply Forall_impl; [apply (gr_behind _ _ Hgr)|]. simpl.
      intros p (c' & ? & ? & ?). exists c'. split_and!; [done..|]. lia.
    + repeat constructor. exists (cellX s', cellY s'). by split_and!.
  - rewrite Hun, (gr_achievable _ _ Hgr).
    destruct (Z.leb_spec 200 (iterationsRepeated s')); [lia|done].
  - rewrite Hfin, Hf. simpl.
    destruct ((cellX s' =? xend cfg) && (cellY s' =? yend cfg)) eqn:E.
    + apply andb_true_iff in E as [->%Z.eqb_eq ->%Z.eqb_eq ]. done.
    + split; [discriminate|]. intros [= E1 E2].
      by rewrite E1, E2, !Z.eqb_refl in E.
Qed.

Lemma greedy_iterate (n : nat) :
  ∀ s, invariant cfg s → greedy_invariant cfg s →
    distance (xend cfg, yend cfg) (cellX s, cellY s) <= Z.of_nat n →
    ∃ s', iterate cfg n s = inr s' ∧ greedy_invariant cfg s' ∧
          finish s' = true.
Proof.
  induction n as [|n IH]; intros s Hinv Hgr Hd; simpl.
  - exists s. split_and!; [done..|]. apply Hgr, distance_zero.
    pose proof (distance_nonneg (xend cfg, yend cfg) (cellX s, cellY s)).
    lia.
  - destruct (running s) eqn:Hrun.
    + destruct (greedy_step s Hinv Hgr Hrun) as (s1 & Hstep & Hgr1 & Hd1).
      rewrite Hstep. simpl. apply IH; [by eapply invariant_step|done|lia].
    + exists s. split_and!; [done..|]. unfold running in Hrun.
      rewrite (gr_achievable _ _ Hgr), andb_true_r in Hrun.
      by apply negb_false_iff in Hrun.
Qed.

End FreeGrid.

(** X22: on a valid grid without obstacles, from a start cell that is not
    the target and less than 200 steps away from it, the run finishes at
    the target without backtracking, with exactly as many commands as the
    Manhattan distance from the start to the target: the planner walks a
    shortest path. *)
Theorem free_grid_shortest_path (cfg : Config) :
  valid_config cfg → obstacles cfg = [] →
  (xinit cfg, yinit cfg) ≠ (xend cfg, yend cfg) →
  distance (xend cfg, yend cfg) (xinit cfg, yinit cfg) < 200 →
  ∃ s, run_navigation_loop cfg 200 = inr s ∧
       finish s = true ∧ unachievable s = false ∧ backtracking s = false ∧
       (cellX s, cellY s) = (xend cfg, yend cfg) ∧
       Z.of_nat (length (commands s))
         = distance (xend cfg, yend cfg) (xinit cfg, yinit cfg).
Proof.
  intros Hvalid Hfree Hne Hcap. unfold run_navigation_loop.
  destruct (invariant_init cfg Hvalid) as (s0 & Hinit & Hinv0).
  rewrite Hinit. simpl.
  pose proof (greedy_init cfg Hvalid Hne s0 Hinit) as Hgr0.
  destruct (greedy_iterate cfg Hvalid Hfree Hcap 200 s0 Hinv0 Hgr0)
    as (s & Hs & Hgr & Hfin).
  { pose proof (gr_distance _ _ Hgr0).
    pose proof (Nat2Z.is_nonneg (length (commands s0))). lia. }
  exists s. split_and!; [done..|apply Hgr|apply Hgr|by apply Hgr|].
  pose proof (gr_distance _ _ Hgr) as Hd.
  apply (gr_finish _ _ Hgr) in Hfin. rewrite Hfin in Hd.
  assert (distance (xend cfg, yend cfg) (xend cfg, yend cfg) = 0) as H0
    by (unfold distance; simpl; lia).
  lia.
Qed.

Lemma free_grid_shortest_path_witness :
  ∃ s, run_navigation_loop (experiment_config 0) 200 = inr s ∧
       finish s = true ∧ Z.of_nat (length (commands s)) = 5.
Proof.
  destruct (free_grid_shortest_path (experiment_config 0))
    as (s & H1 & H2 & _ & _ & _ & H3).
  - unfold valid_config, in_bounds. simpl. lia.
  - reflexivity.
  - discriminate.
  - vm_compute. reflexivity.
  - exists s. split_and!; [exact H1|exact H2|]. rewrite H3. reflexivity.
Defined.

(** ** Obstacles along the route *)

Section Route.

Variable cfg : Config.
Hypothesis Hvalid : valid_config cfg.
Hypothesis Hstart :
  inb (linear_index (xlength cfg) (xinit cfg, yinit cfg)) (obstacles cfg)
    = false.

Lemma scan_from_marks (s : NavState) (ds : list Z) :
  in_bounds cfg (cellX s, cellY s) →
  ∀ f o m f' o' m',
    grid_shape cfg m →
    scan_from cfg s ds (f, o, m) = inr (f', o', m') →
    ∀ d n, d ∈ ds → neighbour cfg (cellX s) (cellY s) d = Some n →
      inb (linear_index (xlength cfg) n) (obstacles cfg) = true →
      code m' n = inr 6.
Proof.
  intros Hcur. induction ds as [|d0 ds IH];
    intros f o m f' o' m' Hm H d n Hd Hn Ho.
  { by apply elem_of_nil in Hd. }
  cbn [scan_from] in H. bind_inv H as acc Hacc.
  destruct acc as [[f1 o1] m1].
  pose proof (scan_direction_shape cfg s d0 _ _ _ _ _ _ Hm Hacc) as Hm1.
  apply elem_of_cons in Hd as [->|Hd]; [|by eapply IH].
  pose proof (neighbour_inv cfg _ _ _ _ Hcur Hn) as [Hb _].
  assert (code m1 n = inr 6) as H6.
  { unfold scan_direction in Hacc. rewrite Hn in Hacc.
    destruct n as [nx ny].
    change (ny * xlength cfg + nx + 1)
      with (linear_index (xlength cfg) (nx, ny)) in Hacc.
    rewrite Ho in Hacc. bind_inv Hacc as m2 H2.
    injection Hacc as _ _ <-.
    rewrite (code_grid_set cfg m m2 (nx, ny) 6 Hm Hb H2 _ Hb).
    by rewrite decide_True. }
  destruct (scanned_from cfg s ds Hcur _ _ _ _ _ _ Hm1 H n Hb)
    as [E|[[E _]|(_ & E & _)]]; congruence.
Qed.

Lemma obstacle_neighbour_marked (s s' : NavState) (n : cell) :
  reachable cfg s → running s = true → step cfg s = inr s' →
  n ∈ neighbours cfg (cellX s) (cellY s) →
  inb (linear_index (xlength cfg) n) (obstacles cfg) = true →
  code (final_map_state s') n = inr 6.
Proof.
  intros Hreach Hrun Hstep Hn Ho.
  pose proof (invariant_reachable cfg Hvalid s Hreach) as Hinv.
  pose proof (map_invariant_reachable cfg Hvalid s Hreach) as Hmi.
  pose proof (invariant_step cfg s s' Hinv Hrun Hstep) as Hinv'.
  pose proof (map_invariant_step cfg s s' Hinv Hmi Hrun Hstep) as Hmi'.
  pose proof (step_map cfg s s' Hstep) as (free & obst & m1 & Hscan & Hmap).
  pose proof (inv_cell _ _ Hinv) as Hcur.
  pose proof (inv_cell _ _ Hinv') as Hnext.
  pose proof (scan_from_shape cfg s _ _ _ _ _ _ _ (inv_shape _ _ Hinv) Hscan)
    as Hm1.
  pose proof (neighbours_adjacent cfg _ _ _ Hcur Hn) as [Hb _].
  apply list_elem_of_omap in Hn as (d & Hd & Hn).
  pose proof (scan_from_marks s _ Hcur _ _ _ _ _ _ (inv_shape _ _ Hinv)
                Hscan d n Hd Hn Ho) as H61.
  assert (∀ s1, invariant cfg s1 → map_invariant cfg s1 →
                n ≠ (cellX s1, cellY s1)) as Hoff.
  { intros s1 Hi Hm ->.
    pose proof (inv_last _ _ Hi) as Hl. apply last_Some_elem_of in Hl.
    pose proof (mi_path_free _ _ Hm Hstart) as Hpf.
    rewrite Forall_forall in Hpf. apply Hpf in Hl. congruence. }
  destruct Hmap as [[_ ->]|(m2 & m3 & ? & _ & H2 & H3 & H4)]; [done|].
  destruct (move_code cfg free (cellX s, cellY s) (cellX s', cellY s')
              _ m1 m2 m3 _ Hm1 Hcur Hnext H2 H3 H4 n Hb)
    as (v1 & Hv1 & _ & _ & Hother).
  rewrite Hv1, <- H61. symmetry. apply Hother; by apply Hoff.
Qed.

Lemma route_obstacles_reachable (s : NavState) :
  reachable cfg s →
  ∀ c n, in_bounds cfg c →
    linear_index (xlength cfg) c ∈ removelast (robotPath s) →
    n ∈ neighbours cfg c.1 c.2 →
    inb (linear_index (xlength cfg) n) (obstacles cfg) = true →
    code (final_map_state s) n = inr 6.
Proof.
  induction 1 as [s0 Hinit|s s' Hreach IH Hrun Hstep];
    intros c n Hc Hin Hn Ho.
  { apply init_state_inv in Hinit as (_ & _ & Hp & _).
    rewrite Hp in Hin. simpl in Hin. by apply elem_of_nil in Hin. }
  pose proof (invariant_reachable cfg Hvalid s Hreach) as Hinv.
  assert (in_bounds cfg n) as Hnb.
  { destruct c as [x y]. by apply (neighbours_adjacent cfg x y n). }
  assert (linear_index (xlength cfg) c ∈ removelast (robotPath s) →
          code (final_map_state s') n = inr 6) as Hold.
  { intros Hin'.
    apply (obstacle_code_step cfg Hvalid s s' n Hstart Hreach Hrun Hstep Hnb).
    by apply (IH c n). }
  destruct (step_trace cfg s s' Hstep)
    as [(_ & Hp & _)|(command & _ & _ & [[Hp _]|[Hp _]])];
    rewrite Hp in Hin.
  - by apply Hold.
  - rewrite removelast_last in Hin.
    pose proof (inv_last _ _ Hinv) as Hl. apply last_Some in Hl as [l Hl].
    rewrite Hl in Hin. apply elem_of_app in Hin as [Hin|Hin].
    + apply Hold. by rewrite Hl, removelast_last.
    + apply list_elem_of_singleton in Hin.
      apply (linear_index_inj cfg) in Hin; [|done|apply Hinv]. subst c.
      by apply (obstacle_neighbour_marked s s' n).
  - rewrite removelast_last in Hin. by apply Hold.
Qed.

End Route.

(** X23: on a valid configuration whose start cell is no obstacle, the map
    shows every obstacle beside the route: an obstacle next to a cell that
    the robot has left (an entry of [robotPath] below the top) holds the
    code 6. *)
Theorem route_obstacles_are_marked (cfg : Config) (s : NavState)
    (c n : cell) :
  valid_config cfg →
  inb (linear_index (xlength cfg) (xinit cfg, yinit cfg)) (obstacles cfg)
    = false →
  reachable cfg s → in_bounds cfg c →
  linear_index (xlength cfg) c ∈ removelast (robotPath s) →
  n ∈ neighbours cfg c.1 c.2 →
  inb (linear_index (xlength cfg) n) (obstacles cfg) = true →
  code (final_map_state s) n = inr 6.
Proof.
  intros Hvalid Hstart Hreach. by apply route_obstacles_reachable.
Qed.

Lemma route_obstacles_are_marked_witness :
  let cfg := experiment_config 2 in
  code (final_map_state (state_after cfg 200)) (2, 2) = inr 6.
Proof.
  intros cfg.
  apply (route_obstacles_are_marked cfg (state_after cfg 200) (3, 2) (2, 2)).
  - unfold valid_config, in_bounds. simpl. lia.
  - vm_compute. reflexivity.
  - apply (state_after_reachable _ 200). vm_compute. reflexivity.
  - unfold in_bounds. simpl. lia.
  - vm_compute. repeat constructor.
  - vm_compute. repeat constructor.
  - vm_compute. reflexivity.
Defined.

(** ** Initialisation *)





(** ** The experiments of the repository *)

(** X25: whatever integer [experiment] holds, the configuration it selects
    is valid, its obstacles are cells of the grid other than the start and
    the target, and the run ends without raising: at the target for the
    experiments 0, 1 and 2, abandoned for every other value. *)
Theorem experiments_end (experiment : Z) :
  let cfg := experiment_config experiment in
  valid_config cfg ∧
  Forall (λ o, 1 <= o <= xlength cfg * ylength cfg) (obstacles cfg) ∧
  inb (linear_index (xlength cfg) (xinit cfg, yinit cfg)) (obstacles cfg)
    = false ∧
  inb (linear_index (xlength cfg) (xend cfg, yend cfg)) (obstacles cfg)
    = false ∧
  ∃ s, run_navigation_loop cfg 200 = inr s ∧
       (finish s = true ↔ 0 <= experiment <= 2) ∧
       (unachievable s = true ↔ ¬ 0 <= experiment <= 2).
Proof.
  unfold experiment_config.
  destruct (Z.eqb_spec experiment 0) as [->|H0];
    [|destruct (Z.eqb_spec experiment 1) as [->|H1];
      [|destruct (Z.eqb_spec experiment 2) as [->|H2]]].
  all: split_and!;
    [unfold valid_config, in_bounds; simpl; lia
    |repeat constructor; simpl; lia
    |reflexivity|reflexivity|].
  all: eexists; split; [vm_compute; reflexivity|]; simpl;
    split; split; (done || lia || (intros; exfalso; lia)).
Qed.
